(** * myzod: the schema validation engine of [src/index.ts]

    A shallow embedding of the eleven schema classes and of their [parse]
    methods, followed by the properties of the validation algorithm and of
    its path-annotated error propagation.

    Conventions of the model.
    - A JavaScript value is JSON-like data plus [undefined].  A number is an
      integer or [NaN]: the validator only applies [typeof], [===] and
      [JSON.stringify] to numbers.  Functions, symbols and bigints are not
      represented.
    - An object is the list of its own enumerable string-keyed properties in
      [Object.keys] order; inherited properties are not visible, so reading a
      key that is not an own property yields [undefined].  Assigning a key
      that is absent appends it.  The engine reads [value[key]] and calls
      [value.hasOwnProperty(key)] on the input itself, so it sees the members
      of [Object.prototype] and an own field named [hasOwnProperty]; the
      statements that depend on either are scoped by [declaresOwnKeysOnly]
      and [inheritsHasOwnProperty], under which the two readings agree.
      Numbers are printed digit for digit, as the engine prints the
      integers a double holds exactly ([printsPlainly]).
    - A shape is the list of its keys, in [Object.keys] order, each with its
      child node; the keys of a shape are distinct, which the statements
      that need it assume ([NoDup], [distinctKeys]).
    - An option field is either absent ([None]) or a boolean.
    - An exception is an explicit [Throw] outcome; [try]/[catch] is a match
      on the outcome.  Only [ValidationError]s are thrown.
    - [prefixes] is a ghost field of [ValidationError]: it counts how many
      human-readable path prefixes were written into [message].  No branch
      of the code reads it. *)

From Stdlib Require Import String Ascii List ZArith Bool Arith Lia.
From Stdlib Require Import DecimalString.
Import ListNotations.
Open Scope string_scope.

Set Warnings "-register-all".

(** ** Values *)

Inductive number : Type :=
| Int (z : Z)
| NaN.

Inductive value : Type :=
| VUndefined
| VNull
| VBoolean (b : bool)
| VNumber (n : number)
| VString (s : string)
| VArray (elems : list value)
| VObject (fields : list (string * value)).

(** [type Literal = string | number | boolean | undefined | null] *)
Inductive Literal : Type :=
| LString (s : string)
| LNumber (n : number)
| LBoolean (b : bool)
| LUndefined
| LNull.

Definition dquote : string := String (ascii_of_nat 34) EmptyString.
Definition newline : string := String (ascii_of_nat 10) EmptyString.

(** [typeof value] *)
Definition typeof (v : value) : string :=
  match v with
  | VUndefined => "undefined"
  | VNull => "object"
  | VBoolean _ => "boolean"
  | VNumber _ => "number"
  | VString _ => "string"
  | VArray _ => "object"
  | VObject _ => "object"
  end.

Definition isArray (v : value) : bool :=
  match v with VArray _ => true | _ => false end.

Definition typeOf (v : value) : string :=
  match v with
  | VNull => "null"
  | _ => if isArray v then "array" else typeof v
  end.

(** ** Paths *)

Inductive segment : Type :=
| Key (s : string)
| Index (n : nat).

Definition string_of_nat (n : nat) : string :=
  NilZero.string_of_uint (Nat.to_uint n).

Definition string_of_Z (z : Z) : string :=
  NilZero.string_of_int (Z.to_int z).

(** The reducer of [prettyPrintPath], with the running index. *)
Fixpoint prettyPrintPath_reduce (path : list segment) (idx : nat) (acc : string)
  : string :=
  match path with
  | [] => acc
  | elem :: rest =>
      prettyPrintPath_reduce rest (S idx)
        (match elem with
         | Index n => acc ++ "[" ++ string_of_nat n ++ "]"
         | Key s => if Nat.eqb idx 0 then acc ++ s else acc ++ "." ++ s
         end)
  end.

Definition prettyPrintPath (path : list segment) : string :=
  prettyPrintPath_reduce path 0 "".

(** ** JSON.stringify, on the values the validator passes to it *)

Definition hexDigit (n : nat) : string :=
  String (nth n ["0";"1";"2";"3";"4";"5";"6";"7";"8";"9";"a";"b";"c";"d";"e";"f"]%char "0"%char) "".

Definition backslash : string := String (ascii_of_nat 92) EmptyString.

Definition quoteChar (c : ascii) : string :=
  let n := nat_of_ascii c in
  if Nat.eqb n 8 then backslash ++ "b"
  else if Nat.eqb n 9 then backslash ++ "t"
  else if Nat.eqb n 10 then backslash ++ "n"
  else if Nat.eqb n 12 then backslash ++ "f"
  else if Nat.eqb n 13 then backslash ++ "r"
  else if Nat.eqb n 34 then backslash ++ dquote
  else if Nat.eqb n 92 then backslash ++ backslash
  else if Nat.ltb n 32 then backslash ++ "u00" ++ hexDigit (n / 16) ++ hexDigit (n mod 16)
  else String c "".

Fixpoint quoteChars (s : string) : string :=
  match s with
  | EmptyString => ""
  | String c rest => quoteChar c ++ quoteChars rest
  end.

Definition quoteJSONString (s : string) : string :=
  dquote ++ quoteChars s ++ dquote.

(** [JSON.stringify] of a number, for the integers a double holds exactly
    (see [printsPlainly]); larger ones are printed by the engine in exponent
    notation. *)
Definition stringifyNumber (n : number) : string :=
  match n with
  | Int z => string_of_Z z
  | NaN => "null"
  end.

Definition stringifyBoolean (b : bool) : string :=
  if b then "true" else "false".

(** [`${JSON.stringify(this.literal)}`]: [JSON.stringify(undefined)] is
    [undefined], which the template renders as the word. *)
Definition stringifyLiteral (l : Literal) : string :=
  match l with
  | LString s => quoteJSONString s
  | LNumber n => stringifyNumber n
  | LBoolean b => stringifyBoolean b
  | LUndefined => "undefined"
  | LNull => "null"
  end.

(** [JSON.stringify(illegalKeys)] for an array of strings. *)
Definition stringifyKeys (keys : list string) : string :=
  "[" ++ String.concat "," (map quoteJSONString keys) ++ "]".

(** [typeof value !== 'object' ? JSON.stringify(value) : typeOf(value)] *)
Definition typeofValue (v : value) : string :=
  match v with
  | VUndefined => "undefined"
  | VBoolean b => stringifyBoolean b
  | VNumber n => stringifyNumber n
  | VString s => quoteJSONString s
  | VNull | VArray _ | VObject _ => typeOf v
  end.

(** [value === this.literal] *)
Definition numberStrictEq (a b : number) : bool :=
  match a, b with
  | Int x, Int y => Z.eqb x y
  | _, _ => false
  end.

Definition strictEqLiteral (v : value) (l : Literal) : bool :=
  match v, l with
  | VString a, LString b => String.eqb a b
  | VNumber a, LNumber b => numberStrictEq a b
  | VBoolean a, LBoolean b => Bool.eqb a b
  | VUndefined, LUndefined => true
  | VNull, LNull => true
  | _, _ => false
  end.

(** ** Own properties of an object *)

Fixpoint getOwn (fields : list (string * value)) (key : string) : option value :=
  match fields with
  | [] => None
  | (k, v) :: rest => if String.eqb k key then Some v else getOwn rest key
  end.

(** [value[key]], for a key that is an own property or that no plain object
    inherits (see [objectPrototypeNames]). *)
Definition get (fields : list (string * value)) (key : string) : value :=
  match getOwn fields key with
  | Some v => v
  | None => VUndefined
  end.

(** [value.hasOwnProperty(key)], for an input on which the call reaches the
    inherited method (see [inheritsHasOwnProperty]). *)
Definition hasOwnProperty (fields : list (string * value)) (key : string) : bool :=
  match getOwn fields key with
  | Some _ => true
  | None => false
  end.

(** [acc[key] = v]; a new key goes last, which is where the engine lists it
    unless the key is integer-like. *)
Fixpoint set (fields : list (string * value)) (key : string) (v : value)
  : list (string * value) :=
  match fields with
  | [] => [(key, v)]
  | (k, w) :: rest =>
      if String.eqb k key then (k, v) :: rest else (k, w) :: set rest key v
  end.

(** [keys.includes(x)] *)
Definition includes (keys : list string) (x : string) : bool :=
  existsb (String.eqb x) keys.

(** [Object.keys(value).filter(x => !keys.includes(x))] *)
Definition illegalKeys (keys : list string) (fields : list (string * value))
  : list string :=
  filter (fun x => negb (includes keys x)) (map fst fields).

(** ** Options *)

Record ObjectOptions : Type := {
  allowUnknown : option bool;
  suppressPathErrMsg : option bool
}.

Record UnionOptions : Type := {
  strict : option bool
}.

Definition noOptions : ObjectOptions :=
  {| allowUnknown := None; suppressPathErrMsg := None |}.

Definition orElse {A : Type} (over base : option A) : option A :=
  match over with
  | Some x => Some x
  | None => base
  end.

(** [{ ...a, ...b }] where either operand may be [undefined] *)
Definition spread (a b : option ObjectOptions) : ObjectOptions :=
  match a, b with
  | None, None => noOptions
  | Some x, None => x
  | None, Some y => y
  | Some x, Some y =>
      {| allowUnknown := orElse (allowUnknown y) (allowUnknown x);
         suppressPathErrMsg := orElse (suppressPathErrMsg y) (suppressPathErrMsg x) |}
  end.

Definition truthy (b : option bool) : bool :=
  match b with
  | Some true => true
  | _ => false
  end.

(** [{ ...opts, suppressPathErrMsg: true }] *)
Definition withSuppress (opts : ObjectOptions) : ObjectOptions :=
  {| allowUnknown := allowUnknown opts; suppressPathErrMsg := Some true |}.

(** [{ suppressPathErrMsg: true }] *)
Definition onlySuppress : ObjectOptions :=
  {| allowUnknown := None; suppressPathErrMsg := Some true |}.

(** [{ allowUnknown: true }] *)
Definition onlyAllowUnknown : ObjectOptions :=
  {| allowUnknown := Some true; suppressPathErrMsg := None |}.

(** ** Errors and outcomes *)

Record ValidationError : Type := {
  message : string;
  path : option (list segment);
  prefixes : nat
}.

Inductive outcome : Type :=
| Return (v : value)
| Throw (err : ValidationError).

(** [throw new ValidationError(msg)] at a failing check *)
Definition fail (msg : string) : outcome :=
  Throw {| message := msg; path := None; prefixes := 0 |}.

(** ** Schema nodes *)

Inductive AnyType : Type :=
| StringType
| BooleanType
| NumberType
| UndefinedType
| NullType
| LiteralType (literal : Literal)
| UnknownType
| ObjectType (objectShape : list (string * AnyType)) (opts : option ObjectOptions)
| ArrayType (schema : AnyType)
| UnionType (schemas : list AnyType) (opts : option UnionOptions)
| IntersectionType (left right : AnyType).

Definition isObjectType (t : AnyType) : bool :=
  match t with ObjectType _ _ => true | _ => false end.

Definition isArrayType (t : AnyType) : bool :=
  match t with ArrayType _ => true | _ => false end.

Definition isUnknownType (t : AnyType) : bool :=
  match t with UnknownType => true | _ => false end.

(** [this.opts?.strict === false] *)
Definition strictIsFalse (opts : option UnionOptions) : bool :=
  match opts with
  | Some {| strict := Some false |} => true
  | _ => false
  end.

(** The two message formats of the [catch] blocks. *)
Definition objectPathMsg (p : list segment) (msg : string) : string :=
  "error parsing object at path: " ++ dquote ++ prettyPrintPath p ++ dquote
    ++ " - " ++ msg.

Definition arrayPathMsg (p : list segment) (msg : string) : string :=
  "error at " ++ prettyPrintPath p ++ " - " ++ msg.

(** ['No union satisfied:\n  ' + errors.join('\n  ')] *)
Definition unionMsg (errors : list string) : string :=
  "No union satisfied:" ++ newline ++ "  "
    ++ String.concat (newline ++ "  ") errors.

(** [`expected key "${key}" of unknown type to be present on object`] *)
Definition unknownKeyMsg (key : string) : string :=
  "expected key " ++ dquote ++ key ++ dquote
    ++ " of unknown type to be present on object".

(** [err.path ? [seg, ...err.path] : [seg]] *)
Definition consPath (seg : segment) (p : option (list segment)) : list segment :=
  match p with
  | Some rest => seg :: rest
  | None => [seg]
  end.

(** The [catch] block of [ObjectType.parse]. *)
Definition objectCatch (opts : ObjectOptions) (key : string) (err : ValidationError)
  : ValidationError :=
  let path := consPath (Key key) (path err) in
  if truthy (suppressPathErrMsg opts)
  then {| message := message err; path := Some path; prefixes := prefixes err |}
  else {| message := objectPathMsg path (message err); path := Some path;
          prefixes := S (prefixes err) |}.

(** The [catch] block of [ArrayType.parse]. *)
Definition arrayCatch (opts : option ObjectOptions) (idx : nat) (err : ValidationError)
  : ValidationError :=
  let path := consPath (Index idx) (path err) in
  if truthy (suppressPathErrMsg (spread None opts))
  then {| message := message err; path := Some path; prefixes := prefixes err |}
  else {| message := arrayPathMsg path (message err); path := Some path;
          prefixes := S (prefixes err) |}.

Section Methods.

(** Dynamic dispatch of [schema.parse(value, opts?)]. *)
Variable parse : AnyType -> value -> option ObjectOptions -> outcome.

(** The body of the [try] block of [ObjectType.parse] for one key. *)
Definition parseKey (opts : ObjectOptions) (fields : list (string * value))
    (key : string) (keySchema : AnyType) : outcome :=
  if isUnknownType keySchema && negb (hasOwnProperty fields key)
  then fail (unknownKeyMsg key)
  else
    match keySchema with
    | ObjectType _ _ => parse keySchema (get fields key) (Some (withSuppress opts))
    | ArrayType _ => parse keySchema (get fields key) (Some onlySuppress)
    | _ => parse keySchema (get fields key) None
    end.

(** [for (const key of keys) { try { ... } catch (err) { ... } }] *)
Fixpoint parseKeys (opts : ObjectOptions) (fields : list (string * value))
    (shape : list (string * AnyType)) (acc : list (string * value)) : outcome :=
  match shape with
  | [] => Return (VObject acc)
  | (key, keySchema) :: rest =>
      match parseKey opts fields key keySchema with
      | Return r => parseKeys opts fields rest (set acc key r)
      | Throw err => Throw (objectCatch opts key err)
      end
  end.

(** The body of the [try] block of [ArrayType.parse] for one element. *)
Definition parseElem (schema : AnyType) (elem : value) : outcome :=
  if isObjectType schema || isArrayType schema
  then parse schema elem (Some onlySuppress)
  else parse schema elem None.

(** [value.forEach((elem, idx) => { try { ... } catch (err) { ... } })] *)
Fixpoint forEachElem (opts : option ObjectOptions) (schema : AnyType)
    (elems : list value) (idx : nat) : option ValidationError :=
  match elems with
  | [] => None
  | elem :: rest =>
      match parseElem schema elem with
      | Return _ => forEachElem opts schema rest (S idx)
      | Throw err => Some (arrayCatch opts idx err)
      end
  end.

(** One candidate of [UnionType.parse]. *)
Definition parseCandidate (opts : option UnionOptions) (schema : AnyType)
    (v : value) : outcome :=
  if strictIsFalse opts && isObjectType schema
  then parse schema v (Some onlyAllowUnknown)
  else parse schema v None.

(** [for (const schema of this.schemas) { try { return ... } catch (err)
    { errors.push(err.message) } }] and the final [throw]; [n] is the
    ghost count of the prefixes inside [errors]. *)
Fixpoint parseUnion (opts : option UnionOptions) (schemas : list AnyType)
    (v : value) (errors : list string) (n : nat) : outcome :=
  match schemas with
  | [] => Throw {| message := unionMsg errors; path := None; prefixes := n |}
  | schema :: rest =>
      match parseCandidate opts schema v with
      | Return r => Return r
      | Throw err => parseUnion opts rest v (errors ++ [message err]) (n + prefixes err)
      end
  end.

(** One branch of [IntersectionType.parse]. *)
Definition parseBranch (schema : AnyType) (v : value) : outcome :=
  if isObjectType schema
  then parse schema v (Some onlyAllowUnknown)
  else parse schema v None.

End Methods.

Fixpoint parse (t : AnyType) (v : value) (optOverrides : option ObjectOptions)
  {struct t} : outcome :=
  match t with
  | StringType =>
      match v with
      | VString _ => Return v
      | _ => fail ("expected type to be string but got " ++ typeOf v)
      end
  | BooleanType =>
      match v with
      | VBoolean _ => Return v
      | _ => fail ("expected type to be boolean but got " ++ typeOf v)
      end
  | NumberType =>
      match v with
      | VNumber _ => Return v
      | _ => fail ("expected type to be number but got " ++ typeOf v)
      end
  | UndefinedType =>
      match v with
      | VUndefined => Return v
      | _ => fail ("expected type to be undefined but got " ++ typeOf v)
      end
  | NullType =>
      match v with
      | VNull => Return v
      | _ => fail ("expected type to be null but got " ++ typeOf v)
      end
  | LiteralType literal =>
      if strictEqLiteral v literal then Return v
      else fail ("expected value to be literal " ++ stringifyLiteral literal
                 ++ " but got " ++ typeofValue v)
  | UnknownType => Return v
  | ObjectType objectShape opts0 =>
      match v with
      | VNull => fail "expected object but got null"
      | VArray _ => fail "expected type to be regular object but got array"
      | VObject fields =>
          let keys := map fst objectShape in
          let opts := spread opts0 optOverrides in
          if negb (truthy (allowUnknown opts))
             && Nat.ltb 0 (List.length (illegalKeys keys fields))
          then fail ("unexpected keys on object: "
                     ++ stringifyKeys (illegalKeys keys fields))
          else parseKeys parse opts fields objectShape fields
      | _ => fail ("expected type to be object but got " ++ typeOf v)
      end
  | ArrayType schema =>
      match v with
      | VArray elems =>
          match forEachElem parse optOverrides schema elems 0 with
          | Some err => Throw err
          | None => Return v
          end
      | _ => fail ("expected an array but got " ++ typeOf v)
      end
  | UnionType schemas opts => parseUnion parse opts schemas v [] 0
  | IntersectionType l r =>
      match parseBranch parse l v with
      | Throw err => Throw err
      | Return _ =>
          match parseBranch parse r v with
          | Throw err => Throw err
          | Return _ => Return v
          end
      end
  end.

(** ** Builders and combinators *)

Definition optional (t : AnyType) : AnyType := UnionType [t; UndefinedType] None.
Definition nullable (t : AnyType) : AnyType := UnionType [t; NullType] None.

(** ** Induction over schema trees *)

Definition isLeaf (t : AnyType) : bool :=
  match t with
  | ObjectType _ _ | ArrayType _ | UnionType _ _ | IntersectionType _ _ => false
  | _ => true
  end.

Section SchemaInduction.

Variable P : AnyType -> Prop.
Hypothesis Hleaf : forall t, isLeaf t = true -> P t.
Hypothesis Hobject :
  forall shape opts, Forall (fun kt => P (snd kt)) shape -> P (ObjectType shape opts).
Hypothesis Harray : forall schema, P schema -> P (ArrayType schema).
Hypothesis Hunion : forall schemas opts, Forall P schemas -> P (UnionType schemas opts).
Hypothesis Hintersection :
  forall l r, P l -> P r -> P (IntersectionType l r).

Fixpoint schema_ind (t : AnyType) : P t :=
  match t with
  | ObjectType shape opts =>
      Hobject shape opts
        ((fix children (l : list (string * AnyType))
           : Forall (fun kt => P (snd kt)) l :=
            match l with
            | [] => Forall_nil _
            | kt :: rest => Forall_cons kt (schema_ind (snd kt)) (children rest)
            end) shape)
  | ArrayType schema => Harray schema (schema_ind schema)
  | UnionType schemas opts =>
      Hunion schemas opts
        ((fix candidates (l : list AnyType) : Forall P l :=
            match l with
            | [] => Forall_nil _
            | c :: rest => Forall_cons c (schema_ind c) (candidates rest)
            end) schemas)
  | IntersectionType l r => Hintersection l r (schema_ind l) (schema_ind r)
  | StringType => Hleaf StringType eq_refl
  | BooleanType => Hleaf BooleanType eq_refl
  | NumberType => Hleaf NumberType eq_refl
  | UndefinedType => Hleaf UndefinedType eq_refl
  | NullType => Hleaf NullType eq_refl
  | LiteralType l => Hleaf (LiteralType l) eq_refl
  | UnknownType => Hleaf UnknownType eq_refl
  end.

End SchemaInduction.

(** ** Outcomes of the steps of the composite nodes *)

(** The candidate [c] of a union with options [opts] rejects [v]. *)
Definition rejects (opts : option UnionOptions) (v : value) (c : AnyType) : Prop :=
  exists err, parseCandidate parse opts c v = Throw err.

(** The element schema accepts [elem]. *)
Definition acceptsElem (schema : AnyType) (elem : value) : Prop :=
  exists r, parseElem parse schema elem = Return r.

(** The declared key [kt] validates on the object [fields]. *)
Definition acceptsKey (opts : ObjectOptions) (fields : list (string * value))
    (kt : string * AnyType) : Prop :=
  exists r, parseKey parse opts fields (fst kt) (snd kt) = Return r.

(** ** Classes of schema trees *)

(** No Object or Array node occurs in the tree. *)
Fixpoint leafOnly (t : AnyType) : bool :=
  match t with
  | ObjectType _ _ | ArrayType _ => false
  | UnionType schemas _ => forallb leafOnly schemas
  | IntersectionType l r => leafOnly l && leafOnly r
  | _ => true
  end.

(** The suppression flag reaches every Object and Array node of the tree:
    no Union or Intersection node, which neither receive nor pass the flag,
    has an Object or Array node below it. *)
Fixpoint flagThreaded (t : AnyType) : bool :=
  match t with
  | ObjectType shape _ => forallb (fun kt => flagThreaded (snd kt)) shape
  | ArrayType schema => flagThreaded schema
  | UnionType _ _ | IntersectionType _ _ => leafOnly t
  | _ => true
  end.

(** [opts.suppressPathErrMsg] as the node [t] called with overrides [o]
    reads it in its [catch] block. *)
Definition suppressionInEffect (t : AnyType) (o : option ObjectOptions) : bool :=
  match t with
  | ObjectType _ opts0 => truthy (suppressPathErrMsg (spread opts0 o))
  | ArrayType _ => truthy (suppressPathErrMsg (spread None o))
  | _ => false
  end.

(** The overrides [o] with the suppression flag set. *)
Definition suppressing (o : option ObjectOptions) : option ObjectOptions :=
  Some (withSuppress (spread None o)).

(** The message format of the [catch] block of node [t]. *)
Definition pathMsg (t : AnyType) : list segment -> string -> string :=
  match t with
  | ArrayType _ => arrayPathMsg
  | _ => objectPathMsg
  end.

(** The overrides an object node passes to the child [keySchema]. *)
Definition keyOverrides (opts : ObjectOptions) (keySchema : AnyType)
  : option ObjectOptions :=
  match keySchema with
  | ObjectType _ _ => Some (withSuppress opts)
  | ArrayType _ => Some onlySuppress
  | _ => None
  end.

(** A successful validation by [t] returns its input: no Object node is
    reached except below an Array or Intersection node. *)
Fixpoint returnsInput (t : AnyType) : bool :=
  match t with
  | ObjectType _ _ => false
  | UnionType schemas _ => forallb returnsInput schemas
  | _ => true
  end.

(** Every union reached through Object nodes and first candidates has, after
    its first candidate, only candidates that return their input. *)
Fixpoint firstCandidateClones (t : AnyType) : bool :=
  match t with
  | ObjectType shape _ => forallb (fun kt => firstCandidateClones (snd kt)) shape
  | UnionType schemas _ =>
      match schemas with
      | [] => true
      | c :: rest => firstCandidateClones c && forallb returnsInput rest
      end
  | _ => true
  end.

Fixpoint distinct (keys : list string) : bool :=
  match keys with
  | [] => true
  | k :: rest => negb (includes rest k) && distinct rest
  end.

(** Every shape of the tree is a JavaScript object: its keys are distinct. *)
Fixpoint distinctKeys (t : AnyType) : bool :=
  match t with
  | ObjectType shape _ =>
      distinct (map fst shape) && forallb (fun kt => distinctKeys (snd kt)) shape
  | ArrayType schema => distinctKeys schema
  | UnionType schemas _ => forallb distinctKeys schemas
  | IntersectionType l r => distinctKeys l && distinctKeys r
  | _ => true
  end.

(** ** Sample schemas and inputs *)

Module Samples.

(** [array(object({ a: string().optional() }))] on [[{}]] *)
Definition optionalA : AnyType := ObjectType [("a", optional StringType)] None.
Definition arrayOfOptionalA : AnyType := ArrayType optionalA.
Definition oneEmptyObject : value := VArray [VObject []].

(** [object({ b: number() })] and the input [{ b: 1 }] *)
Definition numberB : AnyType := ObjectType [("b", NumberType)] None.
Definition b1 : value := VObject [("b", VNumber (Int 1))].

(** [union([string(), number()])] *)
Definition stringOrNumber : AnyType := UnionType [StringType; NumberType] None.

(** [object({ a: string() })] on [{ a: "x", b: 1 }] *)
Definition stringA : AnyType := ObjectType [("a", StringType)] None.
Definition ax_b1 : list (string * value) :=
  [("a", VString "x"); ("b", VNumber (Int 1))].

(** [object({ a: string(), u: unknown() })] on [{ a: "x" }] *)
Definition withUnknownU : list (string * AnyType) :=
  [("a", StringType); ("u", UnknownType)].

(** [object({ o: object({ a: string() }) }, { allowUnknown: true })] and
    [object({ xs: array(object({ a: string() })) }, { allowUnknown: true })] *)
Definition nestedObject : AnyType :=
  ObjectType [("o", stringA)] (Some onlyAllowUnknown).
Definition nestedArray : AnyType :=
  ObjectType [("xs", ArrayType stringA)] (Some onlyAllowUnknown).

(** [object({ u: union([object({ a: string() }), object({ a: number() })]) })]
    on [{ u: { a: true } }] *)
Definition numberA : AnyType := ObjectType [("a", NumberType)] None.
Definition unionInObject : AnyType :=
  ObjectType [("u", UnionType [stringA; numberA] None)] None.
Definition u_a_true : value := VObject [("u", VObject [("a", VBoolean true)])].

(** [object({ a: object({ b: string() }) })] on [{ a: { b: 1 } }] *)
Definition stringB : AnyType := ObjectType [("b", StringType)] None.
Definition objectInObject : AnyType := ObjectType [("a", stringB)] None.
Definition a_b_1 : value := VObject [("a", VObject [("b", VNumber (Int 1))])].

(** [union([object({ a: unknown(), b: string().optional() }),
           object({ a: string().optional() })])] on [{}] *)
Definition unknownA_optionalB : AnyType :=
  ObjectType [("a", UnknownType); ("b", optional StringType)] None.
Definition twoShapes : AnyType := UnionType [unknownA_optionalB; optionalA] None.

End Samples.

(** ** The remaining combinators *)

(** [and(schema)] and [or(schema)] of the base class. *)
Definition and_ (t k : AnyType) : AnyType := IntersectionType t k.
Definition or_ (t k : AnyType) : AnyType := UnionType [t; k] None.

(** ** Notions used to state what validation preserves *)

(** The tag a primitive leaf class expects, as [typeOf] names it. *)
Definition primitiveTag (t : AnyType) : option string :=
  match t with
  | StringType => Some "string"
  | BooleanType => Some "boolean"
  | NumberType => Some "number"
  | UndefinedType => Some "undefined"
  | NullType => Some "null"
  | _ => None
  end.


(** How one more segment is rendered after a non-empty path. *)
Definition renderNext (seg : segment) : string :=
  match seg with
  | Index n => "[" ++ string_of_nat n ++ "]"
  | Key s => "." ++ s
  end.

(** [extends v r]: [r] is [v] with [undefined]-valued fields added to objects
    reached through object keys; nothing is removed or altered. *)
Inductive extends : value -> value -> Prop :=
| extends_same : forall v, extends v v
| extends_object : forall fields acc,
    (forall key x, getOwn fields key = Some x ->
                   exists y, getOwn acc key = Some y /\ extends x y) ->
    (forall key, getOwn fields key = None ->
                 getOwn acc key = None \/ getOwn acc key = Some VUndefined) ->
    extends (VObject fields) (VObject acc).

(** The accumulator of the key loop, against the input's fields. *)
Definition accExtends (fields acc : list (string * value)) : Prop :=
  (forall key x, getOwn fields key = Some x ->
                 exists y, getOwn acc key = Some y /\ extends x y)
  /\ (forall key, getOwn fields key = None ->
                  getOwn acc key = None \/ getOwn acc key = Some VUndefined).

(** [locates t v p]: the path [p] walks the schema [t] and the value [v] in
    lock-step, through declared keys and indices within bounds. *)
Inductive locates : AnyType -> value -> list segment -> Prop :=
| locates_here : forall t v, locates t v []
| locates_key : forall shape opts fields key keySchema rest,
    In (key, keySchema) shape ->
    locates keySchema (get fields key) rest ->
    locates (ObjectType shape opts) (VObject fields) (Key key :: rest)
| locates_index : forall schema elems idx elem rest,
    nth_error elems idx = Some elem ->
    locates schema elem rest ->
    locates (ArrayType schema) (VArray elems) (Index idx :: rest)
| locates_left : forall l r v p,
    locates l v p -> locates (IntersectionType l r) v p
| locates_right : forall l r v p,
    locates r v p -> locates (IntersectionType l r) v p.

(** The overrides [o] with [allowUnknown: true]. *)
Definition allowing (o : option ObjectOptions) : option ObjectOptions :=
  Some {| allowUnknown := Some true;
          suppressPathErrMsg := suppressPathErrMsg (spread None o) |}.

(** ** Where the model and the engine agree *)

(** The names every plain object inherits from [Object.prototype]. *)
Definition objectPrototypeNames : list string :=
  ["constructor"; "hasOwnProperty"; "isPrototypeOf"; "propertyIsEnumerable";
   "toLocaleString"; "toString"; "valueOf"; "__proto__";
   "__defineGetter__"; "__defineSetter__"; "__lookupGetter__"; "__lookupSetter__"].

(** No shape of the tree declares an inherited name: for a declared key,
    [value[key]] then reads an own property or yields [undefined], which is
    what [get] computes. *)
Fixpoint declaresOwnKeysOnly (t : AnyType) : bool :=
  match t with
  | ObjectType shape _ =>
      forallb (fun kt => negb (includes objectPrototypeNames (fst kt))
                         && declaresOwnKeysOnly (snd kt)) shape
  | ArrayType schema => declaresOwnKeysOnly schema
  | UnionType schemas _ => forallb declaresOwnKeysOnly schemas
  | IntersectionType l r => declaresOwnKeysOnly l && declaresOwnKeysOnly r
  | _ => true
  end.

(** No object inside [v] has an own field named [hasOwnProperty]:
    [value.hasOwnProperty(key)] then calls the inherited method, which is
    what [hasOwnProperty] computes. *)
Fixpoint inheritsHasOwnProperty (v : value) : bool :=
  match v with
  | VObject fields =>
      negb (hasOwnProperty fields "hasOwnProperty")
      && forallb (fun kv => inheritsHasOwnProperty (snd kv)) fields
  | VArray elems => forallb inheritsHasOwnProperty elems
  | _ => true
  end.





(** ** The union's candidates, from the union's options *)

(** What trying the candidate [c] yields: with [strict: false] an Object
    candidate is validated with [{ allowUnknown: true }]; every other
    candidate, and every candidate of a union without [strict: false], is
    validated without options. *)
Definition candidateOutcome (opts : option UnionOptions) (c : AnyType) (v : value)
  : outcome :=
  match opts with
  | Some {| strict := Some false |} =>
      if isObjectType c
      then parse c v (Some {| allowUnknown := Some true; suppressPathErrMsg := None |})
      else parse c v None
  | _ => parse c v None
  end.

(** ** More sample schemas and inputs *)

Module Cases.

(** [union([object({ a: string() }), number()])] *)
Definition objectOrNumber : list AnyType := [Samples.stringA; NumberType].

(** [object({ o: object({ a: string().optional() }) })] on [{ o: {}, z: 1 }] *)
Definition nestedOptional : list (string * AnyType) := [("o", Samples.optionalA)].
Definition o_empty_z1 : list (string * value) :=
  [("o", VObject []); ("z", VNumber (Int 1))].
Definition o_cloned_z1 : list (string * value) :=
  [("o", VObject [("a", VUndefined)]); ("z", VNumber (Int 1))].

End Cases.

(** * Properties *)

(** ** Unfolding equations of [parse] *)

Lemma parse_object_eq shape opts0 fields o :
  parse (ObjectType shape opts0) (VObject fields) o =
    if negb (truthy (allowUnknown (spread opts0 o)))
       && Nat.ltb 0 (List.length (illegalKeys (map fst shape) fields))
    then fail ("unexpected keys on object: "
               ++ stringifyKeys (illegalKeys (map fst shape) fields))
    else parseKeys parse (spread opts0 o) fields shape fields.
Proof. reflexivity. Qed.

Lemma parse_array_eq schema elems o :
  parse (ArrayType schema) (VArray elems) o =
    match forEachElem parse o schema elems 0 with
    | Some err => Throw err
    | None => Return (VArray elems)
    end.
Proof. reflexivity. Qed.

Lemma parse_union_eq schemas opts v o :
  parse (UnionType schemas opts) v o = parseUnion parse opts schemas v [] 0.
Proof. reflexivity. Qed.

Lemma parse_intersection_eq l r v o :
  parse (IntersectionType l r) v o =
    match parseBranch parse l v with
    | Throw err => Throw err
    | Return _ =>
        match parseBranch parse r v with
        | Throw err => Throw err
        | Return _ => Return v
        end
    end.
Proof. reflexivity. Qed.

(** A leaf returns the value it was given or fails at its own check,
    whatever options it is called with. *)
Lemma parse_leaf_cases t v o :
  isLeaf t = true ->
  parse t v o = Return v \/ exists msg, parse t v o = fail msg.
Proof.
  destruct t as [ | | | | |lit| | | | | ]; cbn [isLeaf parse];
    try discriminate; intros _.
  6: destruct (strictEqLiteral v lit); eauto.
  all: destruct v; eauto.
Qed.

Lemma parse_leaf_returns t v o r :
  isLeaf t = true -> parse t v o = Return r -> r = v.
Proof.
  intros Hl H. destruct (parse_leaf_cases t v o Hl) as [E|[msg E]];
    rewrite E in H; [now inversion H | discriminate].
Qed.

Lemma parse_leaf_throws t v o e :
  isLeaf t = true -> parse t v o = Throw e -> path e = None /\ prefixes e = 0.
Proof.
  intros Hl H. destruct (parse_leaf_cases t v o Hl) as [E|[msg E]];
    rewrite E in H; [discriminate | now inversion H].
Qed.

Lemma parse_leaf_options t v o o' :
  isLeaf t = true -> parse t v o = parse t v o'.
Proof. destruct t; try discriminate; reflexivity. Qed.

(** Each step of a composite node is one call of [parse] on the child. *)
Lemma parseCandidate_call opts c :
  exists o, forall v, parseCandidate parse opts c v = parse c v o.
Proof. unfold parseCandidate. destruct (_ && _); eauto. Qed.

Lemma parseBranch_call b : exists o, forall v, parseBranch parse b v = parse b v o.
Proof. unfold parseBranch. destruct (isObjectType b); eauto. Qed.

Lemma parseKey_call opts fields key keySchema :
  parseKey parse opts fields key keySchema
  = if isUnknownType keySchema && negb (hasOwnProperty fields key)
    then fail (unknownKeyMsg key)
    else parse keySchema (get fields key) (keyOverrides opts keySchema).
Proof. unfold parseKey. destruct keySchema; reflexivity. Qed.

(** ** Own-property lemmas *)

Lemma getOwn_set_same fields key v : getOwn (set fields key v) key = Some v.
Proof.
  induction fields as [|[k w] rest IH]; simpl.
  - now rewrite String.eqb_refl.
  - destruct (String.eqb k key) eqn:E; simpl; rewrite E; auto.
Qed.

Lemma getOwn_set_other fields key key' v :
  key <> key' -> getOwn (set fields key v) key' = getOwn fields key'.
Proof.
  intros Hne. induction fields as [|[k w] rest IH]; simpl.
  - destruct (String.eqb key key') eqn:E; auto.
    apply String.eqb_eq in E. contradiction.
  - destruct (String.eqb k key) eqn:E; simpl.
    + apply String.eqb_eq in E. subst k.
      destruct (String.eqb key key') eqn:E'; auto.
      apply String.eqb_eq in E'. contradiction.
    + destruct (String.eqb k key'); auto.
Qed.

Lemma set_present fields key v :
  getOwn fields key = Some v -> set fields key v = fields.
Proof.
  induction fields as [|[k w] rest IH]; simpl; [discriminate|].
  destruct (String.eqb k key) eqn:E; intros H.
  - congruence.
  - now rewrite IH.
Qed.

Lemma includes_In keys x : includes keys x = true <-> In x keys.
Proof.
  unfold includes. rewrite existsb_exists. split.
  - intros [y [Hin He]]. apply String.eqb_eq in He. now subst.
  - intros Hin. exists x. split; auto. apply String.eqb_refl.
Qed.


(** ** Array node *)

Lemma forEachElem_none schema o elems idx :
  forEachElem parse o schema elems idx = None ->
  Forall (acceptsElem schema) elems.
Proof.
  revert idx. induction elems as [|elem rest IH]; intros idx H; simpl in H.
  - constructor.
  - destruct (parseElem parse schema elem) as [r|err] eqn:E; [|discriminate].
    constructor; [now exists r | eauto].
Qed.

(** C7: a successful array validation returns the input sequence itself;
    every element was validated, and whatever the element validations
    returned is dropped. *)
Theorem array_returns_input schema v o r :
  parse (ArrayType schema) v o = Return r ->
  r = v /\ exists elems, v = VArray elems /\ Forall (acceptsElem schema) elems.
Proof.
  intros H. destruct v; try discriminate H.
  rewrite parse_array_eq in H.
  destruct (forEachElem parse o schema elems 0) eqn:E; [discriminate|].
  inversion H; subst. split; [reflexivity|].
  exists elems. split; [reflexivity|]. eapply forEachElem_none; eauto.
Qed.

(** The element [{}] validates to the clone [{ a: undefined }], and the
    array still returns [[{}]]. *)
Lemma array_returns_input_witness :
  parseElem parse Samples.optionalA (VObject []) = Return (VObject [("a", VUndefined)])
  /\ parse Samples.arrayOfOptionalA Samples.oneEmptyObject None
     = Return Samples.oneEmptyObject
  /\ Samples.oneEmptyObject = Samples.oneEmptyObject
  /\ exists elems, Samples.oneEmptyObject = VArray elems
                   /\ Forall (acceptsElem Samples.optionalA) elems.
Proof.
  split; [reflexivity|]. split; [reflexivity|].
  apply (array_returns_input Samples.optionalA Samples.oneEmptyObject None).
  reflexivity.
Defined.

(** ** Intersection node *)

(** C4: the left branch is validated, then the right one, an Object branch
    with [allowUnknown] forced to true; a failing branch's error is the
    intersection's error, the left one first; when both succeed the result
    is the input value, whatever the branches returned. *)
Theorem intersection_semantics l r v o :
  (forall shape copts,
      parseBranch parse (ObjectType shape copts) v
        = parse (ObjectType shape copts) v (Some onlyAllowUnknown)
      /\ allowUnknown (spread copts (Some onlyAllowUnknown)) = Some true)
  /\ (forall b, isObjectType b = false -> parseBranch parse b v = parse b v None)
  /\ (forall err, parseBranch parse l v = Throw err ->
                  parse (IntersectionType l r) v o = Throw err)
  /\ (forall a err, parseBranch parse l v = Return a ->
                    parseBranch parse r v = Throw err ->
                    parse (IntersectionType l r) v o = Throw err)
  /\ (forall a b, parseBranch parse l v = Return a ->
                  parseBranch parse r v = Return b ->
                  parse (IntersectionType l r) v o = Return v).
Proof.
  repeat split.
  - destruct copts as [[au sp]|]; reflexivity.
  - intros b Hb. unfold parseBranch. now rewrite Hb.
  - intros err Hl. rewrite parse_intersection_eq, Hl. reflexivity.
  - intros a err Hl Hr. rewrite parse_intersection_eq, Hl, Hr. reflexivity.
  - intros a b Hl Hr. rewrite parse_intersection_eq, Hl, Hr. reflexivity.
Qed.

(** On [{ b: 1 }] the left branch returns the clone [{ b: 1, a: undefined }];
    the intersection returns [{ b: 1 }]. *)
Lemma intersection_semantics_witness :
  parseBranch parse Samples.optionalA Samples.b1
    = Return (VObject [("b", VNumber (Int 1)); ("a", VUndefined)])
  /\ parseBranch parse Samples.numberB Samples.b1 = Return Samples.b1
  /\ parse (IntersectionType Samples.optionalA Samples.numberB) Samples.b1 None
     = Return Samples.b1.
Proof.
  split; [reflexivity|]. split; [reflexivity|].
  apply (proj2 (proj2 (proj2 (proj2
           (intersection_semantics Samples.optionalA Samples.numberB
              Samples.b1 None))))
           (VObject [("b", VNumber (Int 1)); ("a", VUndefined)]) Samples.b1);
    reflexivity.
Defined.

(** ** Union node *)

Lemma parseUnion_all_reject opts v schemas errs :
  Forall2 (fun c err => parseCandidate parse opts c v = Throw err) schemas errs ->
  forall errors n,
    parseUnion parse opts schemas v errors n
    = Throw {| message := unionMsg (errors ++ map message errs);
               path := None;
               prefixes := n + list_sum (map prefixes errs) |}.
Proof.
  induction 1 as [|c err schemas errs Hc _ IH]; intros errors n; simpl.
  - now rewrite app_nil_r, Nat.add_0_r.
  - rewrite Hc, IH, <- app_assoc, Nat.add_assoc. reflexivity.
Qed.

Lemma parseUnion_first_accept opts v pre c post r :
  Forall (rejects opts v) pre ->
  parseCandidate parse opts c v = Return r ->
  forall errors n, parseUnion parse opts (pre ++ c :: post) v errors n = Return r.
Proof.
  intros Hpre Hc. induction Hpre as [|c' pre [err Hc'] _ IH]; intros errors n; simpl.
  - now rewrite Hc.
  - rewrite Hc'. apply IH.
Qed.

Lemma parseUnion_inv opts v schemas :
  forall errors n,
    match parseUnion parse opts schemas v errors n with
    | Return r =>
        exists pre c post, schemas = (pre ++ c :: post)%list
                           /\ Forall (rejects opts v) pre
                           /\ parseCandidate parse opts c v = Return r
    | Throw _ =>
        exists errs,
          Forall2 (fun c err => parseCandidate parse opts c v = Throw err) schemas errs
    end.
Proof.
  induction schemas as [|c rest IH]; intros errors n; simpl.
  - exists []. constructor.
  - destruct (parseCandidate parse opts c v) as [r|err] eqn:Hc.
    + exists [], c, rest. repeat split; auto.
    + specialize (IH (errors ++ [message err])%list (n + prefixes err)).
      destruct (parseUnion parse opts rest v (errors ++ [message err])
                  (n + prefixes err)) as [r|e].
      * destruct IH as (pre & c' & post & -> & Hpre & Hc').
        exists (c :: pre), c', post. repeat split; auto.
        constructor; auto. now exists err.
      * destruct IH as [errs Herrs]. exists (err :: errs). now constructor.
Qed.

Lemma candidateOutcome_eq opts c v :
  parseCandidate parse opts c v = candidateOutcome opts c v.
Proof.
  unfold parseCandidate, candidateOutcome, strictIsFalse.
  destruct opts as [[[[|]|]]|]; simpl; try reflexivity.
Qed.

(** C3: candidates are tried in declared order, an Object candidate with
    [allowUnknown] forced to true when [strict] is explicitly false and
    every other candidate without options; the union returns what the first
    accepting candidate returns, whatever follows it; it fails exactly when
    every candidate rejects, with [No union satisfied:] followed by the
    candidates' messages, each on a line of its own, and no path. *)
Theorem union_first_match schemas opts v o :
  (forall r,
      parse (UnionType schemas opts) v o = Return r <->
      exists pre c post,
        schemas = (pre ++ c :: post)%list
        /\ Forall (fun c' => exists err, candidateOutcome opts c' v = Throw err) pre
        /\ candidateOutcome opts c v = Return r)
  /\ (forall e,
         parse (UnionType schemas opts) v o = Throw e <->
         exists errs,
           Forall2 (fun c err => candidateOutcome opts c v = Throw err) schemas errs
           /\ e = {| message :=
                       "No union satisfied:" ++ String "010" "  "
                         ++ String.concat (String "010" "  ") (map message errs);
                     path := None;
                     prefixes := list_sum (map prefixes errs) |}).
Proof.
  rewrite parse_union_eq. split.
  - intros r. split.
    + intros H. pose proof (parseUnion_inv opts v schemas [] 0) as Hinv.
      rewrite H in Hinv. destruct Hinv as (pre & c & post & -> & Hpre & Hc).
      exists pre, c, post. repeat split.
      * eapply Forall_impl; [|exact Hpre]. intros a [err Ha]. exists err.
        now rewrite <- candidateOutcome_eq.
      * now rewrite <- candidateOutcome_eq.
    + intros (pre & c & post & -> & Hpre & Hc).
      apply parseUnion_first_accept.
      * eapply Forall_impl; [|exact Hpre]. intros a [err Ha]. exists err.
        now rewrite candidateOutcome_eq.
      * now rewrite candidateOutcome_eq.
  - intros e. split.
    + intros H. pose proof (parseUnion_inv opts v schemas [] 0) as Hinv.
      rewrite H in Hinv. destruct Hinv as [errs Herrs]. exists errs.
      split.
      * eapply Forall2_impl; [|exact Herrs]. intros a err Ha.
        now rewrite <- candidateOutcome_eq.
      * rewrite (parseUnion_all_reject _ _ _ _ Herrs) in H. now inversion H.
    + intros (errs & Herrs & ->).
      assert (Herrs' : Forall2 (fun c err => parseCandidate parse opts c v = Throw err)
                         schemas errs).
      { eapply Forall2_impl; [|exact Herrs]. intros a err Ha.
        now rewrite candidateOutcome_eq. }
      now rewrite (parseUnion_all_reject _ _ _ _ Herrs').
Qed.

(** [union([object({ a: string() }), number()])] on [{ a: "x", b: 1 }]: both
    candidates reject and the two messages are reported on two lines; with
    [strict: false] the object candidate tolerates [b] and its result is
    returned. *)
Lemma union_first_match_witness :
  parse (UnionType Cases.objectOrNumber None) (VObject Samples.ax_b1) None
  = Throw {| message :=
               "No union satisfied:"
                 ++ String "010" "  unexpected keys on object: ["
                 ++ String "034" "b" ++ String "034" "]"
                 ++ String "010" "  expected type to be number but got object";
             path := None; prefixes := 0 |}
  /\ parse (UnionType Cases.objectOrNumber (Some {| strict := Some false |}))
           (VObject Samples.ax_b1) None
     = Return (VObject Samples.ax_b1).
Proof.
  split.
  - apply (proj2 (proj2 (union_first_match
                           Cases.objectOrNumber None (VObject Samples.ax_b1) None) _)).
    exists [ {| message := "unexpected keys on object: ["
                           ++ String "034" "b" ++ String "034" "]";
                path := None; prefixes := 0 |};
             {| message := "expected type to be number but got object";
                path := None; prefixes := 0 |} ].
    split; [|reflexivity]. repeat constructor.
  - apply (proj2 (proj1 (union_first_match
                           Cases.objectOrNumber (Some {| strict := Some false |})
                           (VObject Samples.ax_b1) None) _)).
    exists [], Samples.stringA, [NumberType]. repeat split. constructor.
Defined.

(** ** Object node *)

Lemma parseKeys_app_throw opts fields pre key keySchema post err :
  Forall (acceptsKey opts fields) pre ->
  parseKey parse opts fields key keySchema = Throw err ->
  forall acc,
    parseKeys parse opts fields (pre ++ (key, keySchema) :: post) acc
    = Throw (objectCatch opts key err).
Proof.
  intros Hpre Hk.
  induction Hpre as [|[k ks] pre [r Hr] _ IH]; intros acc; simpl.
  - now rewrite Hk.
  - simpl in Hr. rewrite Hr. apply IH.
Qed.

Lemma parseKeys_some_throw opts fields shape key keySchema err :
  In (key, keySchema) shape ->
  parseKey parse opts fields key keySchema = Throw err ->
  forall acc, exists e, parseKeys parse opts fields shape acc = Throw e.
Proof.
  intros Hin Hk.
  induction shape as [|[k ks] rest IH]; intros acc; simpl; [contradiction|].
  destruct (parseKey parse opts fields k ks) as [r|e] eqn:E; [|eauto].
  destruct Hin as [Heq|Hin]; [|now apply IH].
  inversion Heq; subst. congruence.
Qed.


Lemma parseKeys_return opts fields shape :
  NoDup (map fst shape) ->
  forall acc0 r,
    parseKeys parse opts fields shape acc0 = Return r ->
    exists acc,
      r = VObject acc
      /\ (forall key keySchema,
             In (key, keySchema) shape ->
             exists rk, parseKey parse opts fields key keySchema = Return rk
                        /\ getOwn acc key = Some rk)
      /\ (forall key, ~ In key (map fst shape) -> getOwn acc key = getOwn acc0 key).
Proof.
  induction shape as [|[k ks] rest IH]; intros Hnd acc0 r H; simpl in *.
  - inversion H. exists acc0. repeat split; auto. contradiction.
  - inversion Hnd as [|? ? Hnotin Hnd']; subst.
    destruct (parseKey parse opts fields k ks) as [rk|err] eqn:E; [|discriminate].
    destruct (IH Hnd' _ _ H) as (acc & -> & Hdecl & Hother).
    exists acc. split; [reflexivity|]. split.
    + intros key keySchema [Heq|Hin].
      * inversion Heq; subst. exists rk. split; [assumption|].
        rewrite (Hother key Hnotin). apply getOwn_set_same.
      * now apply Hdecl.
    + intros key Hkey. rewrite Hother by tauto.
      apply getOwn_set_other. tauto.
Qed.

(** C5: a successful object validation returns an object in which every
    declared key holds what the validation of that key's field by the
    key's child node returned, and every other key is exactly as in the
    input (present with the same value, or absent). *)
Theorem object_result_is_overwritten_copy shape opts0 o v r :
  NoDup (map fst shape) ->
  declaresOwnKeysOnly (ObjectType shape opts0) = true ->
  inheritsHasOwnProperty v = true ->
  parse (ObjectType shape opts0) v o = Return r ->
  exists fields acc,
    v = VObject fields
    /\ r = VObject acc
    /\ (forall key keySchema,
           In (key, keySchema) shape ->
           exists rk,
             parse keySchema (get fields key)
               (match keySchema with
                | ObjectType _ _ =>
                    Some {| allowUnknown := allowUnknown (spread opts0 o);
                            suppressPathErrMsg := Some true |}
                | ArrayType _ =>
                    Some {| allowUnknown := None; suppressPathErrMsg := Some true |}
                | _ => None
                end) = Return rk
             /\ getOwn acc key = Some rk)
    /\ (forall key, ~ In key (map fst shape) -> getOwn acc key = getOwn fields key).
Proof.
  intros Hnd _ _ H. destruct v; try discriminate H.
  rewrite parse_object_eq in H.
  destruct (negb (truthy (allowUnknown (spread opts0 o)))
            && Nat.ltb 0 (List.length (illegalKeys (map fst shape) fields)));
    [discriminate|].
  destruct (parseKeys_return _ _ _ Hnd _ _ H) as (acc & -> & Hdecl & Hother).
  exists fields, acc. repeat split; auto.
  intros key keySchema Hin. destruct (Hdecl _ _ Hin) as (rk & Hk & Hget).
  exists rk. split; [|assumption].
  rewrite parseKey_call in Hk. destruct (_ && _); [discriminate|].
  destruct keySchema; exact Hk.
Qed.

(** [object({ o: object({ a: string().optional() }) })] under [allowUnknown]
    on [{ o: {}, z: 1 }]: the key [o] holds the clone [{ a: undefined }] its
    child returned, and [z] is kept. *)
Lemma object_result_is_overwritten_copy_witness :
  parse (ObjectType Cases.nestedOptional None) (VObject Cases.o_empty_z1)
        (Some onlyAllowUnknown)
  = Return (VObject [("o", VObject [("a", VUndefined)]); ("z", VNumber (Int 1))])
  /\ exists fields acc,
      VObject Cases.o_empty_z1 = VObject fields
      /\ VObject Cases.o_cloned_z1 = VObject acc
      /\ (forall key keySchema,
             In (key, keySchema) Cases.nestedOptional ->
             exists rk,
               parse keySchema (get fields key)
                 (match keySchema with
                  | ObjectType _ _ =>
                      Some {| allowUnknown :=
                                allowUnknown (spread None (Some onlyAllowUnknown));
                              suppressPathErrMsg := Some true |}
                  | ArrayType _ =>
                      Some {| allowUnknown := None; suppressPathErrMsg := Some true |}
                  | _ => None
                  end) = Return rk
               /\ getOwn acc key = Some rk)
      /\ (forall key, ~ In key (map fst Cases.nestedOptional) ->
                      getOwn acc key = getOwn fields key).
Proof.
  split; [reflexivity|].
  apply (object_result_is_overwritten_copy
           Cases.nestedOptional None (Some onlyAllowUnknown)
           (VObject Cases.o_empty_z1) (VObject Cases.o_cloned_z1)).
  - repeat constructor. simpl. tauto.
  - reflexivity.
  - reflexivity.
  - reflexivity.
Defined.



(** C8 (as amended): a declared key of Unknown type that is not an own field
    of the input makes the object validation fail, although the Unknown
    node accepts every value; when the loop reaches that key (the extra-key
    check passed and the keys declared before it validated) the error is
    [expected key "<key>" of unknown type to be present on object], at path
    [key], behind the object's prefix unless suppressed.  Stated for inputs
    without an own field named [hasOwnProperty]. *)
Theorem unknown_key_is_required shape opts0 o fields key :
  declaresOwnKeysOnly (ObjectType shape opts0) = true ->
  inheritsHasOwnProperty (VObject fields) = true ->
  In (key, UnknownType) shape ->
  hasOwnProperty fields key = false ->
  (forall v o', parse UnknownType v o' = Return v)
  /\ (exists err, parse (ObjectType shape opts0) (VObject fields) o = Throw err)
  /\ (forall pre post,
         shape = (pre ++ (key, UnknownType) :: post)%list ->
         truthy (allowUnknown (spread opts0 o)) = true
           \/ illegalKeys (map fst shape) fields = [] ->
         Forall (acceptsKey (spread opts0 o) fields) pre ->
         parse (ObjectType shape opts0) (VObject fields) o
         = Throw {| message :=
                      if truthy (suppressPathErrMsg (spread opts0 o))
                      then "expected key " ++ dquote ++ key ++ dquote
                             ++ " of unknown type to be present on object"
                      else "error parsing object at path: " ++ dquote ++ key ++ dquote
                             ++ " - expected key " ++ dquote ++ key ++ dquote
                             ++ " of unknown type to be present on object";
                    path := Some [Key key];
                    prefixes :=
                      if truthy (suppressPathErrMsg (spread opts0 o)) then 0 else 1 |}).
Proof.
  intros _ _ Hin Hown.
  assert (Hk : parseKey parse (spread opts0 o) fields key UnknownType
               = fail (unknownKeyMsg key)).
  { unfold parseKey. now rewrite Hown. }
  split; [reflexivity|]. split.
  - rewrite parse_object_eq.
    destruct (negb (truthy (allowUnknown (spread opts0 o)))
              && Nat.ltb 0 (List.length (illegalKeys (map fst shape) fields))).
    + eexists. reflexivity.
    + eapply parseKeys_some_throw; eauto.
  - intros pre post -> Hcheck Hpre. rewrite parse_object_eq.
    replace (negb (truthy (allowUnknown (spread opts0 o)))
             && Nat.ltb 0 (List.length
                  (illegalKeys (map fst (pre ++ (key, UnknownType) :: post)) fields)))
      with false.
    + rewrite (parseKeys_app_throw _ _ _ _ _ post _ Hpre Hk).
      unfold objectCatch. simpl.
      destruct (truthy (suppressPathErrMsg (spread opts0 o))); reflexivity.
    + destruct Hcheck as [-> | ->]; [reflexivity|].
      now rewrite andb_false_r.
Qed.

(** [object({ a: string(), u: unknown() })] on [{ a: "x" }]. *)
Lemma unknown_key_is_required_witness :
  parse (ObjectType Samples.withUnknownU None) (VObject [("a", VString "x")]) None
  = Throw {| message :=
               "error parsing object at path: " ++ String "034" "u"
                 ++ String "034" " - expected key " ++ String "034" "u"
                 ++ String "034" " of unknown type to be present on object";
             path := Some [Key "u"]; prefixes := 1 |}.
Proof.
  apply (proj2 (proj2 (unknown_key_is_required
                  Samples.withUnknownU None None [("a", VString "x")] "u"
                  eq_refl eq_refl ltac:(simpl; tauto) eq_refl))
           [("a", StringType)] []).
  - reflexivity.
  - right. reflexivity.
  - constructor; [|constructor]. eexists. reflexivity.
Defined.

(** C8 (as stated) fails: on [object({ a: string(), u: unknown() })] and
    [{ a: 1 }] the key [u] is declared with the Unknown node and is not an
    own field, yet the error raised is the one of the key [a], declared
    before it, and names neither [u] nor a missing key. *)
Lemma earlier_key_is_reported_instead :
  In ("u", UnknownType) Samples.withUnknownU
  /\ hasOwnProperty [("a", VNumber (Int 1))] "u" = false
  /\ exists e,
      parse (ObjectType Samples.withUnknownU None)
            (VObject [("a", VNumber (Int 1))]) None = Throw e
      /\ message e
         = "error parsing object at path: " ++ String "034" "a"
             ++ String "034" " - expected type to be string but got number"
      /\ path e = Some [Key "a"]
      /\ path e <> Some [Key "u"]
      /\ message e
         <> "error parsing object at path: " ++ String "034" "u"
              ++ String "034" " - expected key " ++ String "034" "u"
              ++ String "034" " of unknown type to be present on object".
Proof.
  split; [simpl; tauto|]. split; [reflexivity|].
  eexists. split; [reflexivity|]. repeat split; discriminate.
Qed.

(** C10: the options in effect at an object node reach a declared Object
    child (so with [allowUnknown] in effect the child skips its extra-key
    check, whatever its own options), but a declared Array child receives
    only the suppression flag, whatever the parent's options, and the array
    hands its Object elements only the suppression flag as well, so an
    element is validated under the [allowUnknown] of its own node alone. *)
Theorem allowUnknown_propagation opts fields key :
  (forall shape copts,
      parseKey parse opts fields key (ObjectType shape copts)
      = parse (ObjectType shape copts) (get fields key) (Some (withSuppress opts))
      /\ (truthy (allowUnknown opts) = true ->
          truthy (allowUnknown (spread copts (Some (withSuppress opts)))) = true
          /\ forall cfields,
              get fields key = VObject cfields ->
              parseKey parse opts fields key (ObjectType shape copts)
              = parseKeys parse (spread copts (Some (withSuppress opts)))
                  cfields shape cfields))
  /\ (forall schema,
         parseKey parse opts fields key (ArrayType schema)
         = parse (ArrayType schema) (get fields key) (Some onlySuppress)
         /\ forall opts',
             parseKey parse opts' fields key (ArrayType schema)
             = parseKey parse opts fields key (ArrayType schema))
  /\ (forall shape copts elem,
         parseElem parse (ObjectType shape copts) elem
         = parse (ObjectType shape copts) elem (Some onlySuppress)
         /\ allowUnknown (spread copts (Some onlySuppress))
            = allowUnknown (spread copts None)).
Proof.
  split; [|split].
  - intros shape copts. split; [reflexivity|]. intros Hau.
    assert (Hc : truthy (allowUnknown (spread copts (Some (withSuppress opts)))) = true).
    { destruct copts as [[au sp]|]; simpl; [|assumption].
      destruct (allowUnknown opts) as [[|]|]; simpl in *; congruence. }
    split; [assumption|]. intros cfields Hget.
    change (parseKey parse opts fields key (ObjectType shape copts))
      with (parse (ObjectType shape copts) (get fields key)
              (Some (withSuppress opts))).
    rewrite Hget, parse_object_eq, Hc. reflexivity.
  - intros schema. split; reflexivity.
  - intros shape copts elem. split; [reflexivity|].
    destruct copts as [[au sp]|]; reflexivity.
Qed.

(** Under a parent with [allowUnknown: true], [{ o: { a: "x", b: 1 } }] is
    accepted by a nested object, while [{ xs: [{ a: "x", b: 1 }] }] is
    rejected for the unexpected key [b] of the array element. *)
Lemma allowUnknown_propagation_witness :
  parse Samples.nestedObject (VObject [("o", VObject Samples.ax_b1)]) None
  = Return (VObject [("o", VObject Samples.ax_b1)])
  /\ parse Samples.nestedArray (VObject [("xs", VArray [VObject Samples.ax_b1])]) None
     = Throw {| message :=
                  objectPathMsg [Key "xs"; Index 0]
                    ("unexpected keys on object: [" ++ dquote ++ "b" ++ dquote ++ "]");
                path := Some [Key "xs"; Index 0]; prefixes := 1 |}
  /\ parseKey parse onlyAllowUnknown [("xs", VArray [VObject Samples.ax_b1])] "xs"
       (ArrayType Samples.stringA)
     = parseKey parse noOptions [("xs", VArray [VObject Samples.ax_b1])] "xs"
         (ArrayType Samples.stringA).
Proof.
  split; [reflexivity|]. split; [reflexivity|].
  apply (proj2 (proj1 (proj2 (allowUnknown_propagation
                                noOptions [("xs", VArray [VObject Samples.ax_b1])] "xs"))
                  Samples.stringA)).
Defined.

(** ** Wrapping formats *)

Lemma forEachElem_some schema o elems :
  forall idx e,
    forEachElem parse o schema elems idx = Some e ->
    exists k elem cerr,
      nth_error elems k = Some elem
      /\ Forall (acceptsElem schema) (firstn k elems)
      /\ parseElem parse schema elem = Throw cerr
      /\ e = arrayCatch o (idx + k) cerr.
Proof.
  induction elems as [|el rest IH]; intros idx e H; simpl in H; [discriminate|].
  destruct (parseElem parse schema el) as [r|cerr] eqn:E.
  - destruct (IH _ _ H) as (k & elem & cerr & Hnth & Hpre & Hel & ->).
    exists (S k), elem, cerr. simpl. repeat split; auto.
    + constructor; [now exists r | assumption].
    + f_equal. lia.
  - inversion H; subst. exists 0, el, cerr. simpl.
    rewrite Nat.add_0_r. repeat split; auto.
Qed.

(** C2 (as amended): when an element fails and suppression was not requested
    of the array node, the node prepends the index of the first failing
    element to the child's path and raises
    [error at <rendered path> - <child message>]; the object node's format
    for a failing key is
    [error parsing object at path: "<rendered path>" - <child message>]. *)
Theorem array_wraps_child_error schema elems o e :
  truthy (suppressPathErrMsg (spread None o)) = false ->
  parse (ArrayType schema) (VArray elems) o = Throw e ->
  (exists idx elem cerr,
      nth_error elems idx = Some elem
      /\ Forall (acceptsElem schema) (firstn idx elems)
      /\ parseElem parse schema elem = Throw cerr
      /\ path e = Some (consPath (Index idx) (path cerr))
      /\ message e = "error at " ++ prettyPrintPath (consPath (Index idx) (path cerr))
                       ++ " - " ++ message cerr)
  /\ (forall opts key cerr,
         truthy (suppressPathErrMsg opts) = false ->
         path (objectCatch opts key cerr) = Some (consPath (Key key) (path cerr))
         /\ message (objectCatch opts key cerr)
            = "error parsing object at path: " ++ dquote
                ++ prettyPrintPath (consPath (Key key) (path cerr)) ++ dquote
                ++ " - " ++ message cerr).
Proof.
  intros Hs H. split.
  - rewrite parse_array_eq in H.
    destruct (forEachElem parse o schema elems 0) as [e'|] eqn:E; [|discriminate].
    inversion H; subst e'.
    destruct (forEachElem_some _ _ _ _ _ E) as (k & elem & cerr & Hnth & Hpre & Hel & ->).
    exists k, elem, cerr. unfold arrayCatch. rewrite Hs. simpl. auto.
  - intros opts key cerr Hopts. unfold objectCatch. rewrite Hopts. simpl. auto.
Qed.

(** [array(string())] on [["x", 1]]. *)
Lemma array_wraps_child_error_witness :
  exists idx elem cerr,
    nth_error [VString "x"; VNumber (Int 1)] idx = Some elem
    /\ Forall (acceptsElem StringType) (firstn idx [VString "x"; VNumber (Int 1)])
    /\ parseElem parse StringType elem = Throw cerr
    /\ Some [Index 1] = Some (consPath (Index idx) (path cerr))
    /\ "error at [1] - expected type to be string but got number"
       = "error at " ++ prettyPrintPath (consPath (Index idx) (path cerr))
           ++ " - " ++ message cerr.
Proof.
  apply (proj1 (array_wraps_child_error
                  StringType [VString "x"; VNumber (Int 1)] None
                  {| message := "error at [1] - expected type to be string but got number";
                     path := Some [Index 1]; prefixes := 1 |}
                  eq_refl eq_refl)).
Defined.

(** C2 (as stated) fails: on [array(string())] and [[1]] the message raised
    is not the object node's wrapping of the child's message at path [[0]]. *)
Lemma array_format_is_not_object_format :
  parseElem parse StringType (VNumber (Int 1))
  = Throw {| message := "expected type to be string but got number";
             path := None; prefixes := 0 |}
  /\ parse (ArrayType StringType) (VArray [VNumber (Int 1)]) None
     = Throw {| message := "error at [0] - expected type to be string but got number";
                path := Some [Index 0]; prefixes := 1 |}
  /\ objectPathMsg [Index 0] "expected type to be string but got number"
     = "error parsing object at path: " ++ dquote ++ "[0]" ++ dquote
         ++ " - expected type to be string but got number"
  /\ "error at [0] - expected type to be string but got number"
     <> objectPathMsg [Index 0] "expected type to be string but got number".
Proof.
  repeat split; try reflexivity. vm_compute. discriminate.
Qed.

(** ** Path prefixes *)

Lemma spread_suppressing opts0 o :
  spread opts0 (suppressing o) = withSuppress (spread opts0 o).
Proof. destruct opts0 as [[au sp]|], o as [[au' sp']|]; reflexivity. Qed.

Lemma suppress_withSuppress copts opts :
  truthy (suppressPathErrMsg (spread copts (Some (withSuppress opts)))) = true.
Proof. destruct copts as [[au sp]|]; reflexivity. Qed.

Lemma flagThreaded_leafOnly t :
  isObjectType t = false -> isArrayType t = false ->
  flagThreaded t = true -> leafOnly t = true.
Proof. destruct t; simpl; auto; discriminate. Qed.

Lemma leafOnly_error t :
  forall v o e,
    leafOnly t = true -> parse t v o = Throw e -> path e = None /\ prefixes e = 0.
Proof.
  induction t as [t Hl|shape opts _|schema _|schemas opts IH|l r IHl IHr]
    using schema_ind; intros v o e Hleaf H.
  - eapply parse_leaf_throws; eauto.
  - discriminate.
  - discriminate.
  - rewrite parse_union_eq in H. simpl in Hleaf.
    pose proof (parseUnion_inv opts v schemas [] 0) as Hinv.
    rewrite H in Hinv. destruct Hinv as [errs Herrs].
    rewrite (parseUnion_all_reject _ _ _ _ Herrs) in H. inversion H; subst e.
    simpl. split; [reflexivity|].
    clear H. induction Herrs as [|c err schemas errs Hc Herrs IHerrs]; [reflexivity|].
    simpl in Hleaf. apply andb_true_iff in Hleaf. destruct Hleaf as [Hc' Hrest].
    inversion IH as [|? ? IHc IHrest]; subst.
    destruct (parseCandidate_call opts c) as [o' Ho']. rewrite Ho' in Hc.
    simpl. destruct (IHc _ _ _ Hc' Hc) as [_ ->]. simpl. now apply IHerrs.
  - rewrite parse_intersection_eq in H. simpl in Hleaf.
    apply andb_true_iff in Hleaf. destruct Hleaf as [Hll Hlr].
    destruct (parseBranch_call l) as [ol Hol].
    destruct (parseBranch_call r) as [or Hor].
    destruct (parseBranch parse l v) as [a|errl] eqn:El.
    + destruct (parseBranch parse r v) as [b|errr] eqn:Er; [discriminate|].
      inversion H; subst. rewrite Hor in Er. eauto.
    + inversion H; subst. rewrite Hol in El. eauto.
Qed.

Lemma parseKeys_throw_inv opts fields shape :
  forall acc e,
    parseKeys parse opts fields shape acc = Throw e ->
    exists key keySchema cerr,
      In (key, keySchema) shape
      /\ parseKey parse opts fields key keySchema = Throw cerr
      /\ e = objectCatch opts key cerr.
Proof.
  induction shape as [|[k ks] rest IH]; intros acc e H; simpl in H; [discriminate|].
  destruct (parseKey parse opts fields k ks) as [r|cerr] eqn:E.
  - destruct (IH _ _ H) as (key & keySchema & cerr & Hin & Hk & ->).
    exists key, keySchema, cerr. simpl. auto.
  - inversion H. exists k, ks, cerr. simpl. auto.
Qed.

(** The number of prefixes in an error raised on a flag-threaded tree. *)
Lemma prefix_count t :
  forall v o e,
    flagThreaded t = true ->
    parse t v o = Throw e ->
    prefixes e = if suppressionInEffect t o then 0
                 else match path e with Some _ => 1 | None => 0 end.
Proof.
  induction t as [t Hl|shape opts0 IH|schema IH|schemas opts _|l r _ _]
    using schema_ind; intros v o e Hft H.
  - destruct (parse_leaf_throws _ _ _ _ Hl H) as [-> ->].
    now destruct (suppressionInEffect t o).
  - assert (Hfail : forall msg, fail msg = Throw e ->
              prefixes e = if suppressionInEffect (ObjectType shape opts0) o then 0
                           else match path e with Some _ => 1 | None => 0 end).
    { intros msg Hm. inversion Hm. simpl. now destruct (truthy _). }
    destruct v; try (now apply (Hfail _ H)).
    rewrite parse_object_eq in H. destruct (_ && _); [now apply (Hfail _ H)|].
    destruct (parseKeys_throw_inv _ _ _ _ _ H) as (key & ks & cerr & Hin & Hk & ->).
    assert (Hc : prefixes cerr = 0).
    { simpl in Hft. rewrite forallb_forall in Hft. specialize (Hft _ Hin).
      rewrite Forall_forall in IH. specialize (IH _ Hin). simpl in Hft, IH.
      rewrite parseKey_call in Hk.
      destruct (_ && _); [now inversion Hk|].
      destruct (isObjectType ks || isArrayType ks) eqn:Ekind.
      - rewrite (IH _ _ _ Hft Hk).
        destruct ks; try discriminate Ekind; simpl.
        + now rewrite suppress_withSuppress.
        + reflexivity.
      - apply orb_false_iff in Ekind. destruct Ekind as [Eo Ea].
        eapply leafOnly_error; [|exact Hk]. now apply flagThreaded_leafOnly. }
    unfold objectCatch, suppressionInEffect.
    destruct (truthy (suppressPathErrMsg (spread opts0 o))); simpl; lia.
  - assert (Hfail : forall msg, fail msg = Throw e ->
              prefixes e = if suppressionInEffect (ArrayType schema) o then 0
                           else match path e with Some _ => 1 | None => 0 end).
    { intros msg Hm. inversion Hm. simpl. now destruct (truthy _). }
    destruct v; try (now apply (Hfail _ H)).
    rewrite parse_array_eq in H.
    destruct (forEachElem parse o schema elems 0) as [e'|] eqn:E; [|discriminate].
    inversion H; subst e'.
    destruct (forEachElem_some _ _ _ _ _ E) as (k & elem & cerr & _ & _ & Hel & ->).
    assert (Hc : prefixes cerr = 0).
    { simpl in Hft. unfold parseElem in Hel.
      destruct (isObjectType schema || isArrayType schema) eqn:Ekind.
      - rewrite (IH _ _ _ Hft Hel).
        destruct schema as [ | | | | | | |cshape copts| | | ];
          try discriminate Ekind; simpl; [|reflexivity].
        now destruct copts as [[au sp]|].
      - apply orb_false_iff in Ekind. destruct Ekind as [Eo Ea].
        eapply leafOnly_error; [|exact Hel]. now apply flagThreaded_leafOnly. }
    unfold arrayCatch, suppressionInEffect.
    destruct (truthy (suppressPathErrMsg (spread None o))); simpl; lia.
  - destruct (leafOnly_error _ _ _ _ Hft H) as [-> ->]. reflexivity.
  - destruct (leafOnly_error _ _ _ _ Hft H) as [-> ->]. reflexivity.
Qed.

Lemma parseKey_withSuppress opts fields key keySchema :
  parseKey parse (withSuppress opts) fields key keySchema
  = parseKey parse opts fields key keySchema.
Proof. unfold parseKey. destruct keySchema; reflexivity. Qed.

Lemma parseKeys_suppressed opts fields shape :
  truthy (suppressPathErrMsg opts) = false ->
  forall acc e,
    parseKeys parse opts fields shape acc = Throw e ->
    exists e' p,
      parseKeys parse (withSuppress opts) fields shape acc = Throw e'
      /\ path e = Some p /\ path e' = Some p
      /\ message e = objectPathMsg p (message e').
Proof.
  intros Hs. induction shape as [|[k ks] rest IH]; intros acc e H;
    cbn [parseKeys] in *.
  - discriminate.
  - rewrite parseKey_withSuppress.
    destruct (parseKey parse opts fields k ks) as [r|cerr]; [eauto|].
    inversion H. unfold objectCatch.
    change (truthy (suppressPathErrMsg (withSuppress opts))) with true.
    rewrite Hs. cbn iota.
    eexists. eexists. split; [reflexivity|]. simpl. auto.
Qed.

Lemma forEachElem_suppressed o schema elems :
  truthy (suppressPathErrMsg (spread None o)) = false ->
  forall idx e,
    forEachElem parse o schema elems idx = Some e ->
    exists e' p,
      forEachElem parse (suppressing o) schema elems idx = Some e'
      /\ path e = Some p /\ path e' = Some p
      /\ message e = arrayPathMsg p (message e').
Proof.
  intros Hs. induction elems as [|el rest IH]; intros idx e H;
    cbn [forEachElem] in *.
  - discriminate.
  - destruct (parseElem parse schema el) as [r|cerr]; [eauto|].
    inversion H. unfold arrayCatch.
    change (truthy (suppressPathErrMsg (spread None (suppressing o)))) with true.
    rewrite Hs. cbn iota.
    eexists. eexists. split; [reflexivity|]. simpl. auto.
Qed.

Lemma suppressionInEffect_suppressing t o :
  isObjectType t || isArrayType t = true ->
  suppressionInEffect t (suppressing o) = true.
Proof.
  destruct t as [ | | | | | | |shape opts0| | | ]; try discriminate; intros _; simpl.
  - rewrite spread_suppressing. reflexivity.
  - reflexivity.
Qed.

(** The same call with the suppression flag set fails at the same place
    with the message that the unsuppressed call wraps. *)
Lemma suppressed_run t v o e :
  flagThreaded t = true ->
  suppressionInEffect t o = false ->
  parse t v o = Throw e ->
  exists e',
    parse t v (suppressing o) = Throw e'
    /\ path e' = path e
    /\ match path e with
       | None => message e = message e'
       | Some p => message e = pathMsg t p (message e')
       end.
Proof.
  intros Hft Hs H.
  assert (Hsame : parse t v (suppressing o) = parse t v o -> path e = None ->
                  exists e',
                    parse t v (suppressing o) = Throw e'
                    /\ path e' = path e
                    /\ match path e with
                       | None => message e = message e'
                       | Some p => message e = pathMsg t p (message e')
                       end).
  { intros Heq Hp. exists e. rewrite Heq, Hp. auto. }
  destruct t as [ | | | | |lit| |shape opts0|schema|schemas opts|l r].
  1-7: apply Hsame;
    [reflexivity | refine (proj1 (parse_leaf_throws _ _ _ _ _ H)); reflexivity].
  - destruct v; try (apply Hsame; [reflexivity | now inversion H]).
    rewrite parse_object_eq in *. rewrite spread_suppressing. simpl in Hs.
    change (allowUnknown (withSuppress (spread opts0 o)))
      with (allowUnknown (spread opts0 o)).
    destruct (_ && _).
    + exists e. split; [assumption|]. inversion H. simpl. auto.
    + destruct (parseKeys_suppressed _ _ _ Hs _ _ H) as (e' & p & He' & Hp & Hp' & Hm).
      exists e'. rewrite Hp, Hp'. auto.
  - destruct v; try (apply Hsame; [reflexivity | now inversion H]).
    rewrite parse_array_eq in *. simpl in Hs.
    destruct (forEachElem parse o schema elems 0) as [e0|] eqn:E; [|discriminate].
    inversion H; subst e0.
    destruct (forEachElem_suppressed _ _ _ Hs _ _ E) as (e' & p & He' & Hp & Hp' & Hm).
    exists e'. rewrite He', Hp, Hp'. auto.
  - apply Hsame; [reflexivity | exact (proj1 (leafOnly_error _ _ _ _ Hft H))].
  - apply Hsame; [reflexivity | exact (proj1 (leafOnly_error _ _ _ _ Hft H))].
Qed.

(** C1 (as amended): on a tree in which no Union or Intersection node has an
    Object or Array node below it, a call whose top node does not suppress
    raises a message with one prefix, rendering the whole path in front of
    the prefix-free message of the failing check, when the failure lies
    under a key or an index; when the top node's own check fails there is
    no path and no prefix. *)
Theorem one_prefix_per_call t v o e :
  flagThreaded t = true ->
  suppressionInEffect t o = false ->
  parse t v o = Throw e ->
  exists e',
    parse t v (suppressing o) = Throw e'
    /\ prefixes e' = 0
    /\ path e' = path e
    /\ match path e with
       | None => message e = message e' /\ prefixes e = 0
       | Some p => message e = pathMsg t p (message e') /\ prefixes e = 1
       end.
Proof.
  intros Hft Hs H.
  destruct (suppressed_run _ _ _ _ Hft Hs H) as (e' & He' & Hp & Hm).
  exists e'. split; [assumption|].
  pose proof (prefix_count _ _ _ _ Hft H) as Hn. rewrite Hs in Hn.
  pose proof (prefix_count _ _ _ _ Hft He') as Hn'.
  assert (He0 : prefixes e' = 0).
  { destruct (isObjectType t || isArrayType t) eqn:Ekind.
    - now rewrite suppressionInEffect_suppressing in Hn'.
    - apply orb_false_iff in Ekind. destruct Ekind as [Eo Ea].
      eapply leafOnly_error; [|exact He']. now apply flagThreaded_leafOnly. }
  repeat split; auto.
  destruct (path e); auto.
Qed.

(** [object({ a: object({ b: string() }) })] on [{ a: { b: 1 } }]: one prefix,
    rendering [a.b]. *)
Lemma one_prefix_per_call_witness :
  exists e',
    parse Samples.objectInObject Samples.a_b_1 (suppressing None) = Throw e'
    /\ prefixes e' = 0
    /\ path e' = Some [Key "a"; Key "b"]
    /\ "error parsing object at path: " ++ dquote ++ "a.b" ++ dquote
         ++ " - expected type to be string but got number"
       = pathMsg Samples.objectInObject [Key "a"; Key "b"] (message e')
    /\ 1 = 1.
Proof.
  apply (one_prefix_per_call Samples.objectInObject Samples.a_b_1 None
           {| message := "error parsing object at path: " ++ dquote ++ "a.b" ++ dquote
                           ++ " - expected type to be string but got number";
              path := Some [Key "a"; Key "b"]; prefixes := 1 |});
    reflexivity.
Defined.

(** C1 (as stated) fails: a union below an object key lets each candidate
    object write its own prefix, and the outer object adds one more. *)
Lemma union_candidates_repeat_prefix :
  exists e,
    parse Samples.unionInObject Samples.u_a_true None = Throw e
    /\ message e
       = objectPathMsg [Key "u"]
           (unionMsg
              [objectPathMsg [Key "a"] "expected type to be string but got boolean";
               objectPathMsg [Key "a"] "expected type to be number but got boolean"])
    /\ path e = Some [Key "u"]
    /\ prefixes e = 3.
Proof. eexists. split; [reflexivity|]. repeat split. Qed.

(** ** Re-validation *)

Lemma parse_array_return schema v o r :
  parse (ArrayType schema) v o = Return r -> r = v.
Proof.
  intros H. destruct v; try discriminate H. rewrite parse_array_eq in H.
  destruct (forEachElem parse o schema elems 0); [discriminate | now inversion H].
Qed.

Lemma parse_intersection_return l r v o res :
  parse (IntersectionType l r) v o = Return res -> res = v.
Proof.
  rewrite parse_intersection_eq.
  destruct (parseBranch parse l v); [|discriminate].
  destruct (parseBranch parse r v); [|discriminate].
  now inversion 1.
Qed.

Lemma returnsInput_returns t :
  forall v o r, returnsInput t = true -> parse t v o = Return r -> r = v.
Proof.
  induction t as [t Hl|shape opts _|schema _|schemas opts IH|l r _ _]
    using schema_ind; intros v o res Hri H.
  - eapply parse_leaf_returns; eauto.
  - discriminate.
  - eapply parse_array_return; eauto.
  - rewrite parse_union_eq in H. simpl in Hri.
    pose proof (parseUnion_inv opts v schemas [] 0) as Hinv. rewrite H in Hinv.
    destruct Hinv as (pre & c & post & -> & _ & Hc).
    destruct (parseCandidate_call opts c) as [o' Ho']. rewrite Ho' in Hc.
    rewrite Forall_forall in IH. rewrite forallb_forall in Hri.
    assert (Hin : In c (pre ++ c :: post)) by (apply in_or_app; simpl; auto).
    eapply IH; eauto.
  - eapply parse_intersection_return; eauto.
Qed.

Lemma distinct_NoDup keys : distinct keys = true -> NoDup keys.
Proof.
  induction keys as [|k rest IH]; simpl; intros H; constructor.
  - apply andb_true_iff in H. destruct H as [H _].
    intros Hin. apply includes_In in Hin. rewrite Hin in H. discriminate.
  - apply andb_true_iff in H. tauto.
Qed.

Lemma illegalKeys_set keys acc key v :
  In key keys -> illegalKeys keys (set acc key v) = illegalKeys keys acc.
Proof.
  intros Hin. apply includes_In in Hin. unfold illegalKeys.
  induction acc as [|[k w] rest IH]; simpl.
  - now rewrite Hin.
  - destruct (String.eqb k key); simpl; [reflexivity | now rewrite IH].
Qed.

Lemma parseKeys_illegalKeys keys opts fields shape :
  (forall kt, In kt shape -> In (fst kt) keys) ->
  forall acc0 acc,
    parseKeys parse opts fields shape acc0 = Return (VObject acc) ->
    illegalKeys keys acc = illegalKeys keys acc0.
Proof.
  induction shape as [|[k ks] rest IH]; intros Hkeys acc0 acc H; simpl in H.
  - now inversion H.
  - destruct (parseKey parse opts fields k ks) as [rk|err]; [|discriminate].
    rewrite (IH (fun kt Hin => Hkeys kt (or_intror Hin)) _ _ H).
    apply illegalKeys_set. apply (Hkeys (k, ks)). now left.
Qed.

Lemma parseKeys_all_accept opts fields shape :
  Forall (acceptsKey opts fields) shape ->
  forall acc, exists r, parseKeys parse opts fields shape acc = Return r.
Proof.
  induction 1 as [|[k ks] rest [rk Hk] _ IH]; intros acc; simpl.
  - eauto.
  - simpl in Hk. rewrite Hk. apply IH.
Qed.

Lemma parseKeys_fixed opts acc shape :
  Forall (fun kt => exists rk,
              getOwn acc (fst kt) = Some rk
              /\ parseKey parse opts acc (fst kt) (snd kt) = Return rk) shape ->
  parseKeys parse opts acc shape acc = Return (VObject acc).
Proof.
  induction 1 as [|[k ks] rest (rk & Hget & Hk) _ IH]; simpl.
  - reflexivity.
  - simpl in Hget, Hk. rewrite Hk, (set_present _ _ _ Hget). exact IH.
Qed.

Lemma parseUnion_some_accept opts v schemas :
  Exists (fun c => exists r, parseCandidate parse opts c v = Return r) schemas ->
  forall errors n, exists r, parseUnion parse opts schemas v errors n = Return r.
Proof.
  induction schemas as [|c rest IH]; intros Hex errors n; simpl.
  - inversion Hex.
  - destruct (parseCandidate parse opts c v) as [r|err] eqn:Hc; [eauto|].
    apply IH. inversion Hex as [? ? [r Hr]|]; subst; [congruence | assumption].
Qed.

(** What a key's validation returned is validated again when the result
    object is given back to the node. *)
Lemma parseKey_on_result opts fields acc key keySchema rk :
  parseKey parse opts fields key keySchema = Return rk ->
  getOwn acc key = Some rk ->
  parse keySchema (get fields key) (keyOverrides opts keySchema) = Return rk
  /\ parseKey parse opts acc key keySchema
     = parse keySchema rk (keyOverrides opts keySchema).
Proof.
  intros Hk Hget. rewrite parseKey_call in Hk. rewrite parseKey_call.
  unfold hasOwnProperty at 1, get at 2. rewrite Hget, andb_false_r.
  destruct (_ && _); [discriminate | auto].
Qed.

(** C9 (as amended): what a successful validation returned is accepted again
    by the same node under the same options; the second result is the first
    one when, in every union reached through Object nodes and first
    candidates, the candidates after the first return their input. *)
Theorem revalidation t :
  distinctKeys t = true ->
  forall v o r,
    parse t v o = Return r ->
    (exists r', parse t r o = Return r')
    /\ (firstCandidateClones t = true -> parse t r o = Return r).
Proof.
  induction t as [t Hl|shape opts0 IH|schema _|schemas opts IH|l r _ _]
    using schema_ind; intros Hdk v o res H.
  - assert (res = v) by (eapply parse_leaf_returns; eauto). subst. eauto.
  - destruct v; try discriminate H.
    rewrite parse_object_eq in H.
    simpl in Hdk. apply andb_true_iff in Hdk. destruct Hdk as [Hnd Hdk].
    apply distinct_NoDup in Hnd. rewrite forallb_forall in Hdk.
    rewrite Forall_forall in IH.
    destruct (negb (truthy (allowUnknown (spread opts0 o)))
              && Nat.ltb 0 (List.length (illegalKeys (map fst shape) fields)))
      eqn:G; [discriminate|].
    destruct (parseKeys_return _ _ _ Hnd _ _ H) as (acc & -> & Hdecl & _).
    rewrite parse_object_eq.
    rewrite (parseKeys_illegalKeys (map fst shape) _ _ shape
               (fun kt Hin => in_map fst _ _ Hin) _ _ H), G.
    split.
    + apply parseKeys_all_accept. apply Forall_forall. intros [key ks] Hin.
      destruct (Hdecl _ _ Hin) as (rk & Hk & Hget).
      destruct (parseKey_on_result _ _ _ _ _ _ Hk Hget) as [Hfirst Hagain].
      destruct (IH _ Hin (Hdk _ Hin) _ _ _ Hfirst) as [[r' Hr'] _].
      exists r'. simpl. now rewrite Hagain.
    + intros Hfc. simpl in Hfc. rewrite forallb_forall in Hfc.
      apply parseKeys_fixed. apply Forall_forall. intros [key ks] Hin.
      destruct (Hdecl _ _ Hin) as (rk & Hk & Hget).
      destruct (parseKey_on_result _ _ _ _ _ _ Hk Hget) as [Hfirst Hagain].
      destruct (IH _ Hin (Hdk _ Hin) _ _ _ Hfirst) as [_ Hstable].
      exists rk. simpl. split; [assumption|].
      rewrite Hagain. apply Hstable. apply (Hfc _ Hin).
  - assert (res = v) by (eapply parse_array_return; eauto). subst. eauto.
  - rewrite parse_union_eq in H. rewrite parse_union_eq.
    simpl in Hdk. rewrite forallb_forall in Hdk. rewrite Forall_forall in IH.
    pose proof (parseUnion_inv opts v schemas [] 0) as Hinv. rewrite H in Hinv.
    destruct Hinv as (pre & c & post & -> & Hpre & Hc).
    assert (Hin : In c (pre ++ c :: post)) by (apply in_or_app; simpl; auto).
    destruct (parseCandidate_call opts c) as [o' Ho'].
    rewrite Ho' in Hc.
    destruct (IH _ Hin (Hdk _ Hin) _ _ _ Hc) as [[r' Hr'] Hstable].
    split.
    + apply parseUnion_some_accept. apply Exists_exists.
      exists c. split; [assumption|]. exists r'. now rewrite Ho'.
    + intros Hfc. destruct pre as [|c0 pre]; simpl in Hfc;
        apply andb_true_iff in Hfc; destruct Hfc as [Hfirst Hrest].
      * simpl. now rewrite Ho', (Hstable Hfirst).
      * rewrite forallb_forall in Hrest.
        assert (res = v).
        { eapply returnsInput_returns; [|exact Hc].
          apply Hrest. apply in_or_app; simpl; auto. }
        subst. exact H.
  - assert (res = v) by (eapply parse_intersection_return; eauto). subst. eauto.
Qed.

(** [object({ a: string().optional() })] on [{}] returns [{ a: undefined }],
    which the node returns unchanged when it is validated again. *)
Lemma revalidation_witness :
  parse Samples.optionalA (VObject []) None = Return (VObject [("a", VUndefined)])
  /\ (exists r', parse Samples.optionalA (VObject [("a", VUndefined)]) None = Return r')
  /\ (firstCandidateClones Samples.optionalA = true ->
      parse Samples.optionalA (VObject [("a", VUndefined)]) None
      = Return (VObject [("a", VUndefined)])).
Proof.
  split; [reflexivity|].
  apply (revalidation Samples.optionalA eq_refl (VObject []) None
           (VObject [("a", VUndefined)]) eq_refl).
Defined.

(** C9 (as stated) fails: [{}] is rejected by the first candidate, which
    requires the key [a], and cloned to [{ a: undefined }] by the second;
    the clone is accepted by the first candidate, which clones it again. *)
Lemma union_revalidation_changes_result :
  parse Samples.twoShapes (VObject []) None = Return (VObject [("a", VUndefined)])
  /\ parse Samples.twoShapes (VObject [("a", VUndefined)]) None
     = Return (VObject [("a", VUndefined); ("b", VUndefined)])
  /\ VObject [("a", VUndefined); ("b", VUndefined)] <> VObject [("a", VUndefined)].
Proof. repeat split; try reflexivity. discriminate. Qed.

(** * Further properties of the engine *)

(** ** Leaf nodes and [typeOf] *)

(** X1: each of the five primitive leaf classes accepts exactly the values
    whose [typeOf] is the class's tag, returns them as they are, and
    otherwise throws a pathless error naming the expected and the observed
    tag. *)
Theorem primitive_accepts_by_tag t tag v o :
  primitiveTag t = Some tag ->
  parse t v o
  = if String.eqb (typeOf v) tag
    then Return v
    else Throw {| message := "expected type to be " ++ tag ++ " but got " ++ typeOf v;
                  path := None; prefixes := 0 |}.
Proof.
  destruct t; simpl; intros H; inversion H; subst; destruct v; reflexivity.
Qed.

(** [number()] accepts [NaN] and rejects an array, reporting [array]. *)
Lemma primitive_accepts_by_tag_witness :
  parse NumberType (VNumber NaN) None = Return (VNumber NaN)
  /\ parse NumberType (VArray []) None
     = Throw {| message := "expected type to be number but got array";
                path := None; prefixes := 0 |}.
Proof.
  split.
  - apply (primitive_accepts_by_tag NumberType "number" (VNumber NaN) None eq_refl).
  - apply (primitive_accepts_by_tag NumberType "number" (VArray []) None eq_refl).
Defined.

(** X2: [typeOf] reports one of seven tags, and reports [object] only for a
    plain object: [null] and arrays have tags of their own. *)
Theorem typeOf_tags v :
  In (typeOf v) ["undefined"; "null"; "boolean"; "number"; "string"; "array"; "object"]
  /\ (typeOf v = "object" <-> exists fields, v = VObject fields)
  /\ (typeOf v = "array" <-> exists elems, v = VArray elems)
  /\ (typeOf v = "null" <-> v = VNull).
Proof.
  destruct v; simpl; repeat split; try tauto; try discriminate;
    try (intros [x Hx]; discriminate Hx); eauto.
Qed.




(** ** Path rendering *)

Lemma prettyPrintPath_reduce_app p q :
  forall idx acc,
    prettyPrintPath_reduce (p ++ q) idx acc
    = prettyPrintPath_reduce q (idx + List.length p) (prettyPrintPath_reduce p idx acc).
Proof.
  induction p as [|seg p IH]; intros idx acc; simpl.
  - now rewrite Nat.add_0_r.
  - rewrite IH. f_equal. lia.
Qed.

(** X4: rendering a path one segment longer appends the segment's own
    rendering to the rendering of the path: [[n]] for an index and [.key]
    for a key, the first segment of a path being rendered without the dot. *)
Theorem prettyPrintPath_snoc p seg :
  p <> [] ->
  prettyPrintPath (p ++ [seg]) = prettyPrintPath p ++ renderNext seg.
Proof.
  intros Hp. unfold prettyPrintPath. rewrite prettyPrintPath_reduce_app.
  destruct p as [|s p]; [contradiction|]. simpl List.length. simpl Nat.add.
  cbn [prettyPrintPath_reduce]. destruct seg; reflexivity.
Qed.

(** [a[3]] followed by the key [b] renders as [a[3].b]. *)
Lemma prettyPrintPath_snoc_witness :
  prettyPrintPath ([Key "a"; Index 3] ++ [Key "b"]) = "a[3].b"
  /\ prettyPrintPath [Key "a"; Index 3] ++ renderNext (Key "b") = "a[3].b".
Proof.
  split; [reflexivity|].
  rewrite <- (prettyPrintPath_snoc [Key "a"; Index 3] (Key "b") ltac:(discriminate)).
  reflexivity.
Defined.

(** ** What a successful validation returns *)

Lemma extends_undefined r : extends VUndefined r -> r = VUndefined.
Proof. now inversion 1. Qed.

Lemma accExtends_start fields : accExtends fields fields.
Proof.
  split.
  - intros key x Hx. exists x. split; [assumption | constructor].
  - intros key Hnone. now left.
Qed.

Lemma accExtends_set fields acc key rk :
  accExtends fields acc ->
  extends (get fields key) rk ->
  accExtends fields (set acc key rk).
Proof.
  intros [Hsome Hnone] Hrk. unfold get in Hrk. split.
  - intros key' x Hx. destruct (string_dec key key') as [<-|Hne].
    + rewrite Hx in Hrk. exists rk. split; [apply getOwn_set_same | assumption].
    + rewrite (getOwn_set_other _ _ _ _ Hne). now apply Hsome.
  - intros key' Hx. destruct (string_dec key key') as [<-|Hne].
    + rewrite Hx in Hrk. apply extends_undefined in Hrk. subst.
      right. apply getOwn_set_same.
    + rewrite (getOwn_set_other _ _ _ _ Hne). now apply Hnone.
Qed.

Lemma parseKeys_extends opts fields shape :
  Forall (fun kt => forall v o r, parse (snd kt) v o = Return r -> extends v r) shape ->
  forall acc0 r,
    parseKeys parse opts fields shape acc0 = Return r ->
    accExtends fields acc0 ->
    exists acc, r = VObject acc /\ accExtends fields acc.
Proof.
  induction 1 as [|[k ks] rest Hks _ IH]; intros acc0 r H Hacc; simpl in H.
  - inversion H. eauto.
  - destruct (parseKey parse opts fields k ks) as [rk|err] eqn:Hk; [|discriminate].
    apply (IH _ _ H). apply accExtends_set; [assumption|].
    rewrite parseKey_call in Hk. destruct (_ && _); [discriminate|].
    apply (Hks _ _ _ Hk).
Qed.

Lemma parse_extends t :
  forall v o r, parse t v o = Return r -> extends v r.
Proof.
  induction t as [t Hl|shape opts0 IH|schema _|schemas opts IH|l r _ _]
    using schema_ind; intros v o res H.
  - assert (res = v) by (eapply parse_leaf_returns; eauto). subst. constructor.
  - destruct v; try discriminate H. rewrite parse_object_eq in H.
    destruct (_ && _); [discriminate|].
    destruct (parseKeys_extends _ _ _ IH _ _ H (accExtends_start fields))
      as (acc & -> & Hsome & Hnone).
    now constructor.
  - assert (res = v) by (eapply parse_array_return; eauto). subst. constructor.
  - rewrite parse_union_eq in H.
    pose proof (parseUnion_inv opts v schemas [] 0) as Hinv. rewrite H in Hinv.
    destruct Hinv as (pre & c & post & -> & _ & Hc).
    destruct (parseCandidate_call opts c) as [o' Ho']. rewrite Ho' in Hc.
    rewrite Forall_forall in IH. eapply IH; [|exact Hc].
    apply in_or_app; simpl; auto.
  - assert (res = v) by (eapply parse_intersection_return; eauto). subst. constructor.
Qed.

(** X5: on a schema whose shapes declare no name inherited from
    [Object.prototype], whatever a node returns extends its input: every
    field of the input is kept with a value that extends the original, and
    every added field holds [undefined].  Validation never removes or
    alters data. *)
Theorem result_extends_input t v o r :
  declaresOwnKeysOnly t = true ->
  parse t v o = Return r -> extends v r.
Proof. intros _. apply parse_extends. Qed.

(** [object({ a: string().optional() })] on [{ b: 1 }] under [allowUnknown]. *)
Lemma result_extends_input_witness :
  parse Samples.optionalA (VObject [("b", VNumber (Int 1))]) (Some onlyAllowUnknown)
  = Return (VObject [("b", VNumber (Int 1)); ("a", VUndefined)])
  /\ extends (VObject [("b", VNumber (Int 1))])
             (VObject [("b", VNumber (Int 1)); ("a", VUndefined)]).
Proof.
  split; [reflexivity|].
  apply (result_extends_input Samples.optionalA (VObject [("b", VNumber (Int 1))])
           (Some onlyAllowUnknown) _ eq_refl).
  reflexivity.
Defined.

Lemma parse_non_object t v o r :
  (forall fields, v <> VObject fields) ->
  parse t v o = Return r ->
  r = v.
Proof.
  intros Hv H. apply parse_extends in H.
  inversion H; subst; [reflexivity|]. now contradiction (Hv fields).
Qed.

(** X6: only objects are ever cloned: a value that is not a plain object is
    returned as it is by every node that accepts it. *)
Theorem non_object_returned_unchanged t v o r :
  (forall fields, v <> VObject fields) ->
  parse t v o = Return r ->
  r = v.
Proof. apply parse_non_object. Qed.

(** An array of objects is returned unchanged by an optional array node. *)
Lemma non_object_returned_unchanged_witness :
  parse (optional Samples.arrayOfOptionalA) Samples.oneEmptyObject None
  = Return Samples.oneEmptyObject
  /\ Samples.oneEmptyObject = Samples.oneEmptyObject.
Proof.
  split; [reflexivity|].
  apply (non_object_returned_unchanged (optional Samples.arrayOfOptionalA)
           Samples.oneEmptyObject None Samples.oneEmptyObject);
    [discriminate | reflexivity].
Defined.

(** ** Combinators *)

Lemma parse_pair_union a b v o :
  parse (UnionType [a; b] None) v o
  = match parse a v None with
    | Return r => Return r
    | Throw ea =>
        match parse b v None with
        | Return r => Return r
        | Throw eb =>
            Throw {| message := unionMsg [message ea; message eb];
                     path := None;
                     prefixes := prefixes ea + prefixes eb |}
        end
    end.
Proof.
  rewrite parse_union_eq. simpl. unfold parseCandidate. simpl.
  destruct (parse a v None); [reflexivity|].
  destruct (parse b v None); reflexivity.
Qed.

(** X7: [t.optional()] accepts [undefined] whatever [t] is, returning
    [undefined]; on any other value it returns exactly what [t] returns when
    called without options, the options given to the union being dropped. *)
Theorem optional_semantics t o :
  parse (optional t) VUndefined o = Return VUndefined
  /\ (forall v r, v <> VUndefined ->
                  (parse (optional t) v o = Return r <-> parse t v None = Return r)).
Proof.
  unfold optional. split.
  - rewrite parse_pair_union.
    destruct (parse t VUndefined None) as [r|e] eqn:E; [|reflexivity].
    f_equal. eapply parse_non_object; [|exact E]. discriminate.
  - intros v r Hv. rewrite parse_pair_union.
    destruct (parse t v None) as [r'|e]; [tauto|].
    destruct v; try contradiction; simpl; split; discriminate.
Qed.

(** X8: [t.nullable()] accepts [null] whatever [t] is, returning [null]; on
    any other value it returns exactly what [t] returns when called without
    options. *)
Theorem nullable_semantics t o :
  parse (nullable t) VNull o = Return VNull
  /\ (forall v r, v <> VNull ->
                  (parse (nullable t) v o = Return r <-> parse t v None = Return r)).
Proof.
  unfold nullable. split.
  - rewrite parse_pair_union.
    destruct (parse t VNull None) as [r|e] eqn:E; [|reflexivity].
    f_equal. eapply parse_non_object; [|exact E]. discriminate.
  - intros v r Hv. rewrite parse_pair_union.
    destruct (parse t v None) as [r'|e]; [tauto|].
    destruct v; try contradiction; simpl; split; discriminate.
Qed.

(** X9: chaining [or] is associative for what is accepted and returned:
    [a.or(b).or(c)] and [a.or(b.or(c))] return the same value on the same
    input, or both reject it. *)
Theorem or_associative a b c v o r :
  parse (or_ (or_ a b) c) v o = Return r <-> parse (or_ a (or_ b c)) v o = Return r.
Proof.
  unfold or_. rewrite !parse_pair_union.
  destruct (parse a v None); [tauto|].
  destruct (parse b v None); [tauto|].
  destruct (parse c v None); [tauto | split; discriminate].
Qed.

(** X10: [and] is symmetric for what is accepted: [a.and(b)] and [b.and(a)]
    accept the same inputs, and both return the input itself. *)
Theorem and_symmetric a b v o r :
  (parse (and_ a b) v o = Return r <-> parse (and_ b a) v o = Return r)
  /\ (parse (and_ a b) v o = Return r -> r = v).
Proof.
  unfold and_. rewrite !parse_intersection_eq.
  destruct (parseBranch parse a v), (parseBranch parse b v);
    repeat split; try discriminate; try tauto; now inversion 1.
Qed.

(** ** Error paths *)

(** X11: the path of an error is never empty and always walks the schema and
    the input in lock-step: each key is declared by the object node reached,
    each index is within the bounds of the array reached. *)
Theorem error_path_locates t :
  forall v o e p,
    parse t v o = Throw e ->
    path e = Some p ->
    p <> [] /\ locates t v p.
Proof.
  induction t as [t Hl|shape opts0 IH|schema IH|schemas opts _|l r IHl IHr]
    using schema_ind; intros v o e p H Hp.
  - destruct (parse_leaf_throws _ _ _ _ Hl H) as [Hnone _]. congruence.
  - destruct v; try (inversion H; subst e; discriminate Hp).
    rewrite parse_object_eq in H.
    destruct (_ && _); [inversion H; subst e; discriminate Hp|].
    destruct (parseKeys_throw_inv _ _ _ _ _ H) as (key & ks & cerr & Hin & Hk & ->).
    assert (Hpath : p = consPath (Key key) (path cerr)).
    { unfold objectCatch in Hp. destruct (truthy _); simpl in Hp; congruence. }
    subst p. rewrite Forall_forall in IH. specialize (IH _ Hin). simpl in IH.
    destruct (path cerr) as [rest|] eqn:Hc; simpl; (split; [discriminate|]).
    + econstructor; [exact Hin|].
      rewrite parseKey_call in Hk.
      destruct (_ && _); [inversion Hk; subst cerr; discriminate Hc|].
      apply (IH _ _ _ _ Hk Hc).
    + econstructor; [exact Hin | constructor].
  - destruct v; try (inversion H; subst e; discriminate Hp).
    rewrite parse_array_eq in H.
    destruct (forEachElem parse o schema elems 0) as [e'|] eqn:E; [|discriminate].
    inversion H; subst e'.
    destruct (forEachElem_some _ _ _ _ _ E) as (k & elem & cerr & Hnth & _ & Hel & ->).
    simpl in Hp.
    assert (Hpath : p = consPath (Index k) (path cerr)).
    { unfold arrayCatch in Hp. destruct (truthy _); simpl in Hp; congruence. }
    subst p.
    destruct (path cerr) as [rest|] eqn:Hc; simpl; (split; [discriminate|]).
    + econstructor; [exact Hnth|].
      unfold parseElem in Hel. destruct (_ || _); apply (IH _ _ _ _ Hel Hc).
    + econstructor; [exact Hnth | constructor].
  - rewrite parse_union_eq in H.
    pose proof (parseUnion_inv opts v schemas [] 0) as Hinv. rewrite H in Hinv.
    destruct Hinv as [errs Herrs].
    rewrite (parseUnion_all_reject _ _ _ _ Herrs) in H. inversion H; subst e.
    discriminate Hp.
  - rewrite parse_intersection_eq in H.
    destruct (parseBranch_call l) as [ol Hol].
    destruct (parseBranch_call r) as [or Hor].
    destruct (parseBranch parse l v) as [a|errl] eqn:El.
    + destruct (parseBranch parse r v) as [b|errr] eqn:Er; [discriminate|].
      inversion H; subst. rewrite Hor in Er.
      destruct (IHr _ _ _ _ Er Hp). split; [assumption | now apply locates_right].
    + inversion H; subst. rewrite Hol in El.
      destruct (IHl _ _ _ _ El Hp). split; [assumption | now apply locates_left].
Qed.

(** The error of [object({ xs: array(object({ a: string() })) })] on
    [{ xs: [{ a: "x", b: 1 }] }] is located at [xs[0]]. *)
Lemma error_path_locates_witness :
  [Key "xs"; Index 0] <> []
  /\ locates Samples.nestedArray
       (VObject [("xs", VArray [VObject Samples.ax_b1])]) [Key "xs"; Index 0].
Proof.
  apply (error_path_locates Samples.nestedArray
           (VObject [("xs", VArray [VObject Samples.ax_b1])]) None
           {| message :=
                objectPathMsg [Key "xs"; Index 0]
                  ("unexpected keys on object: [" ++ dquote ++ "b" ++ dquote ++ "]");
              path := Some [Key "xs"; Index 0]; prefixes := 1 |});
    reflexivity.
Defined.

(** ** Object node: which key is reported *)

Lemma parseKeys_throw_split opts fields shape :
  forall acc e,
    parseKeys parse opts fields shape acc = Throw e ->
    exists pre key keySchema post cerr,
      shape = (pre ++ (key, keySchema) :: post)%list
      /\ Forall (acceptsKey opts fields) pre
      /\ parseKey parse opts fields key keySchema = Throw cerr
      /\ e = objectCatch opts key cerr.
Proof.
  induction shape as [|[k ks] rest IH]; intros acc e H; simpl in H; [discriminate|].
  destruct (parseKey parse opts fields k ks) as [r|cerr] eqn:E.
  - destruct (IH _ _ H) as (pre & key & keySchema & post & cerr & -> & Hpre & Hk & ->).
    exists ((k, ks) :: pre), key, keySchema, post, cerr. repeat split; auto.
    constructor; [now exists r | assumption].
  - inversion H. exists [], k, ks, rest, cerr. repeat split; auto.
Qed.

(** X12: once the extra-key check has passed, an object validation fails
    exactly when some declared key fails, and the error is the one of the
    first failing key in declaration order, whatever the order of the
    input's fields, with the key prepended to the child's path. *)
Theorem object_reports_first_failing_key shape opts0 o fields e :
  truthy (allowUnknown (spread opts0 o)) = true
    \/ illegalKeys (map fst shape) fields = [] ->
  (parse (ObjectType shape opts0) (VObject fields) o = Throw e
   <-> exists pre key keySchema post cerr,
        shape = (pre ++ (key, keySchema) :: post)%list
        /\ Forall (acceptsKey (spread opts0 o) fields) pre
        /\ parseKey parse (spread opts0 o) fields key keySchema = Throw cerr
        /\ e = objectCatch (spread opts0 o) key cerr
        /\ path e = Some (Key key :: match path cerr with
                                     | Some rest => rest
                                     | None => []
                                     end)).
Proof.
  intros Hcheck. rewrite parse_object_eq.
  replace (negb (truthy (allowUnknown (spread opts0 o)))
           && Nat.ltb 0 (List.length (illegalKeys (map fst shape) fields)))
    with false
    by (destruct Hcheck as [-> | ->]; [reflexivity | now rewrite andb_false_r]).
  split.
  - intros H.
    destruct (parseKeys_throw_split _ _ _ _ _ H)
      as (pre & key & ks & post & cerr & Hshape & Hpre & Hk & ->).
    exists pre, key, ks, post, cerr. repeat split; auto.
    unfold objectCatch.
    destruct (truthy (suppressPathErrMsg (spread opts0 o))), (path cerr);
      reflexivity.
  - intros (pre & key & ks & post & cerr & -> & Hpre & Hk & -> & _).
    now apply parseKeys_app_throw.
Qed.

(** [object({ a: string(), b: number() })] on [{ b: "x", a: 1 }]: both keys
    fail and [a], declared first, is reported. *)
Lemma object_reports_first_failing_key_witness :
  parse (ObjectType [("a", StringType); ("b", NumberType)] None)
        (VObject [("b", VString "x"); ("a", VNumber (Int 1))]) None
  = Throw {| message := objectPathMsg [Key "a"] "expected type to be string but got number";
             path := Some [Key "a"]; prefixes := 1 |}.
Proof.
  apply (proj2 (object_reports_first_failing_key
                  [("a", StringType); ("b", NumberType)] None None
                  [("b", VString "x"); ("a", VNumber (Int 1))] _
                  (or_intror eq_refl))).
  exists [], "a", StringType, [("b", NumberType)],
    {| message := "expected type to be string but got number";
       path := None; prefixes := 0 |}.
  repeat split. constructor.
Defined.

(** ** Array node: acceptance *)

Lemma forEachElem_all_accept schema o elems :
  Forall (acceptsElem schema) elems ->
  forall idx, forEachElem parse o schema elems idx = None.
Proof.
  induction 1 as [|elem rest [r Hr] _ IH]; intros idx; simpl.
  - reflexivity.
  - rewrite Hr. apply IH.
Qed.

Lemma forEachElem_first_reject schema o elems :
  forall k elem cerr idx,
    nth_error elems k = Some elem ->
    Forall (acceptsElem schema) (firstn k elems) ->
    parseElem parse schema elem = Throw cerr ->
    forEachElem parse o schema elems idx = Some (arrayCatch o (idx + k) cerr).
Proof.
  induction elems as [|el rest IH]; intros k elem cerr idx Hnth Hpre Hel.
  - destruct k; discriminate Hnth.
  - destruct k as [|k]; simpl in *.
    + inversion Hnth; subst. now rewrite Hel, Nat.add_0_r.
    + inversion Hpre as [|? ? [r Hr] Hpre']; subst. rewrite Hr.
      rewrite (IH _ _ _ (S idx) Hnth Hpre' Hel). do 2 f_equal. lia.
Qed.

(** X13: an array node accepts a sequence exactly when its element schema
    accepts every element (so the empty sequence is always accepted), and it
    fails exactly with the error of the first rejected element, whose index,
    within bounds, is prepended to the child's path. *)
Theorem array_accepts_iff schema elems o :
  (parse (ArrayType schema) (VArray elems) o = Return (VArray elems)
   <-> Forall (acceptsElem schema) elems)
  /\ (forall e,
         parse (ArrayType schema) (VArray elems) o = Throw e
         <-> exists idx elem cerr,
              nth_error elems idx = Some elem
              /\ Forall (acceptsElem schema) (firstn idx elems)
              /\ parseElem parse schema elem = Throw cerr
              /\ e = arrayCatch o idx cerr).
Proof.
  rewrite parse_array_eq. split.
  - split.
    + intros H. destruct (forEachElem parse o schema elems 0) eqn:E; [discriminate|].
      eapply forEachElem_none; eauto.
    + intros H. now rewrite (forEachElem_all_accept _ o _ H).
  - intros e. split.
    + intros H. destruct (forEachElem parse o schema elems 0) as [e'|] eqn:E;
        [|discriminate].
      inversion H; subst e'.
      destruct (forEachElem_some _ _ _ _ _ E) as (k & elem & cerr & ? & ? & ? & ->).
      exists k, elem, cerr. auto.
    + intros (idx & elem & cerr & Hnth & Hpre & Hel & ->).
      now rewrite (forEachElem_first_reject _ o _ _ _ _ 0 Hnth Hpre Hel).
Qed.

(** [array(number())] accepts [[]] and [[1, 2]]. *)
Lemma array_accepts_iff_witness :
  parse (ArrayType NumberType) (VArray []) None = Return (VArray [])
  /\ parse (ArrayType NumberType) (VArray [VNumber (Int 1); VNumber (Int 2)]) None
     = Return (VArray [VNumber (Int 1); VNumber (Int 2)]).
Proof.
  split.
  - apply (proj2 (proj1 (array_accepts_iff NumberType [] None))). constructor.
  - apply (proj2 (proj1 (array_accepts_iff NumberType
                           [VNumber (Int 1); VNumber (Int 2)] None))).
    repeat constructor; eexists; reflexivity.
Defined.

(** ** What the options change *)

Lemma parseKeys_withSuppress opts fields shape :
  forall acc,
    (forall r, parseKeys parse opts fields shape acc = Return r ->
               parseKeys parse (withSuppress opts) fields shape acc = Return r)
    /\ (forall e, parseKeys parse opts fields shape acc = Throw e ->
                  exists e' p,
                    parseKeys parse (withSuppress opts) fields shape acc = Throw e'
                    /\ path e = Some p /\ path e' = Some p
                    /\ (message e = message e'
                        \/ message e = objectPathMsg p (message e'))).
Proof.
  induction shape as [|[k ks] rest IH]; intros acc; cbn [parseKeys].
  - split; [auto | discriminate].
  - rewrite parseKey_withSuppress.
    destruct (parseKey parse opts fields k ks) as [rk|cerr]; [apply IH|].
    split; [discriminate|]. intros e H. inversion H.
    unfold objectCatch.
    change (truthy (suppressPathErrMsg (withSuppress opts))) with true.
    cbn iota. eexists. eexists. split; [reflexivity|].
    destruct (truthy (suppressPathErrMsg opts)); simpl; auto.
Qed.

Lemma forEachElem_suppressing o schema elems :
  forall idx,
    match forEachElem parse o schema elems idx with
    | None => forEachElem parse (suppressing o) schema elems idx = None
    | Some e =>
        exists e' p,
          forEachElem parse (suppressing o) schema elems idx = Some e'
          /\ path e = Some p /\ path e' = Some p
          /\ (message e = message e' \/ message e = arrayPathMsg p (message e'))
    end.
Proof.
  induction elems as [|el rest IH]; intros idx; cbn [forEachElem].
  - reflexivity.
  - destruct (parseElem parse schema el) as [r|cerr]; [apply IH|].
    unfold arrayCatch.
    change (truthy (suppressPathErrMsg (spread None (suppressing o)))) with true.
    cbn iota. eexists. eexists. split; [reflexivity|].
    destruct (truthy (suppressPathErrMsg (spread None o))); simpl; auto.
Qed.

(** X14: the suppression flag changes the text of the message and nothing
    else: with the flag set a call returns the same value, or fails with
    the same path, and the unsuppressed message is the suppressed one,
    possibly behind the node's path prefix. *)
Theorem suppression_changes_message_only t v o :
  (forall r, parse t v o = Return r -> parse t v (suppressing o) = Return r)
  /\ (forall e, parse t v o = Throw e ->
                exists e',
                  parse t v (suppressing o) = Throw e'
                  /\ path e' = path e
                  /\ (message e = message e'
                      \/ exists p, path e = Some p
                                   /\ message e = pathMsg t p (message e'))).
Proof.
  assert (Hsame : parse t v (suppressing o) = parse t v o ->
                  (forall r, parse t v o = Return r ->
                             parse t v (suppressing o) = Return r)
                  /\ (forall e, parse t v o = Throw e ->
                                exists e',
                                  parse t v (suppressing o) = Throw e'
                                  /\ path e' = path e
                                  /\ (message e = message e'
                                      \/ exists p, path e = Some p
                                                   /\ message e
                                                      = pathMsg t p (message e')))).
  { intros ->. split; [auto|]. intros e H. exists e. auto. }
  destruct t as [ | | | | |lit| |shape opts0|schema|schemas opts|l r];
    try (apply Hsame; reflexivity).
  - destruct v; try (apply Hsame; reflexivity). clear Hsame.
    rewrite !parse_object_eq, spread_suppressing.
    change (allowUnknown (withSuppress (spread opts0 o)))
      with (allowUnknown (spread opts0 o)).
    destruct (_ && _).
    + split; [auto|]. intros e H. exists e. auto.
    + destruct (parseKeys_withSuppress (spread opts0 o) fields shape fields)
        as [Hret Hthrow].
      split; [assumption|]. intros e H.
      destruct (Hthrow _ H) as (e' & p & He' & Hp & Hp' & Hm).
      exists e'. rewrite Hp, Hp'. repeat split; auto.
      destruct Hm; eauto.
  - destruct v; try (apply Hsame; reflexivity). clear Hsame.
    rewrite !parse_array_eq.
    pose proof (forEachElem_suppressing o schema elems 0) as Hs.
    destruct (forEachElem parse o schema elems 0) as [e0|].
    + destruct Hs as (e' & p & He' & Hp & Hp' & Hm). rewrite He'.
      split; [discriminate|]. intros e H. inversion H; subst e0.
      exists e'. rewrite Hp, Hp'. repeat split; auto.
      destruct Hm; eauto.
    + rewrite Hs. split; [auto | discriminate].
Qed.

Lemma spread_allowing opts0 o :
  spread opts0 (allowing o)
  = {| allowUnknown := Some true;
       suppressPathErrMsg := suppressPathErrMsg (spread opts0 o) |}.
Proof. destruct opts0 as [[au sp]|], o as [[au' sp']|]; reflexivity. Qed.

Lemma parseKeys_allowing fields shape :
  Forall (fun kt => forall v o r, parse (snd kt) v o = Return r ->
                                  parse (snd kt) v (allowing o) = Return r) shape ->
  forall opts acc r,
    parseKeys parse opts fields shape acc = Return r ->
    parseKeys parse {| allowUnknown := Some true;
                       suppressPathErrMsg := suppressPathErrMsg opts |}
      fields shape acc = Return r.
Proof.
  induction 1 as [|[k ks] rest Hks _ IH]; intros opts acc r H; simpl in *.
  - assumption.
  - destruct (parseKey parse opts fields k ks) as [rk|err] eqn:Hk; [|discriminate].
    assert (Hk' : parseKey parse {| allowUnknown := Some true;
                                   suppressPathErrMsg := suppressPathErrMsg opts |}
                    fields k ks = Return rk).
    { rewrite parseKey_call in Hk. rewrite parseKey_call.
      destruct (_ && _); [discriminate|].
      destruct ks; try exact Hk. apply (Hks _ _ _ Hk). }
    rewrite Hk'. now apply IH.
Qed.

Lemma forEachElem_none_options schema elems o o' :
  forall idx,
    forEachElem parse o schema elems idx = None ->
    forEachElem parse o' schema elems idx = None.
Proof.
  induction elems as [|el rest IH]; intros idx H; simpl in *.
  - reflexivity.
  - destruct (parseElem parse schema el); [eauto | discriminate].
Qed.

Lemma parse_allowing t :
  forall v o r, parse t v o = Return r -> parse t v (allowing o) = Return r.
Proof.
  induction t as [t Hl|shape opts0 IH|schema _|schemas opts _|l r _ _]
    using schema_ind; intros v o res H.
  - now rewrite (parse_leaf_options t v (allowing o) o Hl).
  - destruct v; try discriminate H.
    rewrite parse_object_eq in H. rewrite parse_object_eq, spread_allowing.
    destruct (_ && _); [discriminate|].
    cbn [allowUnknown truthy negb andb].
    now apply parseKeys_allowing.
  - destruct v; try discriminate H.
    rewrite parse_array_eq in H. rewrite parse_array_eq.
    destruct (forEachElem parse o schema elems 0) eqn:E; [discriminate|].
    now rewrite (forEachElem_none_options _ _ o (allowing o) _ E).
  - exact H.
  - exact H.
Qed.

(** X15: turning [allowUnknown] on never turns an accepted input into a
    rejected one and never changes what is returned. *)
Theorem allowUnknown_never_rejects t v o r :
  parse t v o = Return r -> parse t v (allowing o) = Return r.
Proof. apply parse_allowing. Qed.

(** [object({ a: string() })] accepts [{ a: "x" }] with and without the
    option. *)
Lemma allowUnknown_never_rejects_witness :
  parse Samples.stringA (VObject [("a", VString "x")]) (allowing None)
  = Return (VObject [("a", VString "x")]).
Proof.
  apply (allowUnknown_never_rejects Samples.stringA
           (VObject [("a", VString "x")]) None).
  reflexivity.
Defined.

(** ** Intersection of two object nodes *)

Lemma parseKey_same_own opts fields fields' key keySchema :
  getOwn fields' key = getOwn fields key ->
  parseKey parse opts fields' key keySchema = parseKey parse opts fields key keySchema.
Proof.
  intros H. rewrite !parseKey_call. unfold hasOwnProperty, get. now rewrite H.
Qed.

Lemma parseKeys_same_own opts fields fields' shape :
  (forall key, In key (map fst shape) -> getOwn fields' key = getOwn fields key) ->
  forall acc acc' r,
    parseKeys parse opts fields shape acc = Return r ->
    exists r', parseKeys parse opts fields' shape acc' = Return r'.
Proof.
  induction shape as [|[k ks] rest IH]; intros Hown acc acc' r H; simpl in *.
  - eauto.
  - rewrite (parseKey_same_own opts fields fields' k ks (Hown k (or_introl eq_refl))).
    destruct (parseKey parse opts fields k ks); [|discriminate].
    eapply IH; eauto.
Qed.

Lemma parseBranch_object shape opts fields :
  parseBranch parse (ObjectType shape opts) (VObject fields)
  = parseKeys parse (spread opts (Some onlyAllowUnknown)) fields shape fields.
Proof.
  unfold parseBranch. cbn [isObjectType]. rewrite parse_object_eq.
  now destruct opts as [[au sp]|].
Qed.

(** X16: an intersection of two object nodes never rejects a key that
    neither shape declares: an input that agrees with an accepted input on
    the declared keys is accepted too, whatever other keys it has and
    whatever the two nodes' own [allowUnknown] settings are.  Stated for
    shapes that declare no name inherited from [Object.prototype] and
    inputs in which no object has an own field named [hasOwnProperty]. *)
Theorem intersection_tolerates_undeclared_keys sa oa sb ob fields fields' o :
  declaresOwnKeysOnly (IntersectionType (ObjectType sa oa) (ObjectType sb ob)) = true ->
  inheritsHasOwnProperty (VObject fields) = true ->
  inheritsHasOwnProperty (VObject fields') = true ->
  (forall key, In key (map fst sa) \/ In key (map fst sb) ->
               getOwn fields' key = getOwn fields key) ->
  parse (IntersectionType (ObjectType sa oa) (ObjectType sb ob)) (VObject fields) o
  = Return (VObject fields) ->
  parse (IntersectionType (ObjectType sa oa) (ObjectType sb ob)) (VObject fields') o
  = Return (VObject fields').
Proof.
  intros _ _ _ Hown. rewrite !parse_intersection_eq, !parseBranch_object.
  destruct (parseKeys parse (spread oa (Some onlyAllowUnknown)) fields sa fields)
    as [ra|] eqn:Ea; [|discriminate].
  destruct (parseKeys parse (spread ob (Some onlyAllowUnknown)) fields sb fields)
    as [rb|] eqn:Eb; [|discriminate].
  intros _.
  destruct (parseKeys_same_own _ fields fields' sa
              (fun key Hin => Hown key (or_introl Hin)) _ fields' _ Ea) as [ra' ->].
  destruct (parseKeys_same_own _ fields fields' sb
              (fun key Hin => Hown key (or_intror Hin)) _ fields' _ Eb) as [rb' ->].
  reflexivity.
Qed.

(** [intersection(object({ a: string() }), object({ b: number() }))] accepts
    [{ a: "x", b: 1 }], hence also [{ a: "x", b: 1, c: true }]. *)
Lemma intersection_tolerates_undeclared_keys_witness :
  parse (IntersectionType Samples.stringA Samples.numberB)
        (VObject [("a", VString "x"); ("b", VNumber (Int 1)); ("c", VBoolean true)]) None
  = Return (VObject [("a", VString "x"); ("b", VNumber (Int 1)); ("c", VBoolean true)]).
Proof.
  apply (intersection_tolerates_undeclared_keys
           [("a", StringType)] None [("b", NumberType)] None Samples.ax_b1
           [("a", VString "x"); ("b", VNumber (Int 1)); ("c", VBoolean true)] None
           eq_refl eq_refl eq_refl).
  - intros key [[<-|[]]|[<-|[]]]; reflexivity.
  - reflexivity.
Defined.

(** ** Acceptance by object and union nodes *)

Lemma parseKeys_return_all_accept opts fields shape :
  forall acc r,
    parseKeys parse opts fields shape acc = Return r ->
    Forall (acceptsKey opts fields) shape.
Proof.
  induction shape as [|[k ks] rest IH]; intros acc r H; simpl in H.
  - constructor.
  - destruct (parseKey parse opts fields k ks) as [rk|err] eqn:Hk; [|discriminate].
    constructor; [now exists rk | eauto].
Qed.

Lemma acceptsKey_iff opts fields kt :
  acceptsKey opts fields kt
  <-> (isUnknownType (snd kt) = true -> hasOwnProperty fields (fst kt) = true)
      /\ exists r, parse (snd kt) (get fields (fst kt))
                     (match snd kt with
                      | ObjectType _ _ =>
                          Some {| allowUnknown := allowUnknown opts;
                                  suppressPathErrMsg := Some true |}
                      | ArrayType _ =>
                          Some {| allowUnknown := None; suppressPathErrMsg := Some true |}
                      | _ => None
                      end) = Return r.
Proof.
  unfold acceptsKey. rewrite parseKey_call.
  change (keyOverrides opts (snd kt))
    with (match snd kt with
          | ObjectType _ _ =>
              Some {| allowUnknown := allowUnknown opts; suppressPathErrMsg := Some true |}
          | ArrayType _ =>
              Some {| allowUnknown := None; suppressPathErrMsg := Some true |}
          | _ => None
          end).
  destruct (isUnknownType (snd kt)), (hasOwnProperty fields (fst kt)); simpl.
  - split; [intros H; split; auto | tauto].
  - split; [intros [r H]; discriminate H | intros [H _]; now specialize (H eq_refl)].
  - split; [intros H; split; [discriminate | auto] | tauto].
  - split; [intros H; split; [discriminate | auto] | tauto].
Qed.

(** X17: on a shape that declares no name inherited from [Object.prototype]
    and an input without own [hasOwnProperty] fields, an object node
    accepts the input exactly when the extra-key check passes
    ([allowUnknown] in effect, or no undeclared key) and every declared key
    validates: its child node accepts the field's value, [undefined] when
    the input lacks the field, and a key of Unknown type is an own field. *)
Theorem object_accepts_iff shape opts0 o fields :
  declaresOwnKeysOnly (ObjectType shape opts0) = true ->
  inheritsHasOwnProperty (VObject fields) = true ->
  ((exists r, parse (ObjectType shape opts0) (VObject fields) o = Return r)
   <-> (truthy (allowUnknown (spread opts0 o)) = true
        \/ illegalKeys (map fst shape) fields = [])
       /\ Forall (fun kt =>
                    (isUnknownType (snd kt) = true ->
                     hasOwnProperty fields (fst kt) = true)
                    /\ exists r,
                        parse (snd kt) (get fields (fst kt))
                          (match snd kt with
                           | ObjectType _ _ =>
                               Some {| allowUnknown := allowUnknown (spread opts0 o);
                                       suppressPathErrMsg := Some true |}
                           | ArrayType _ =>
                               Some {| allowUnknown := None;
                                       suppressPathErrMsg := Some true |}
                           | _ => None
                           end) = Return r) shape).
Proof.
  intros _ _. rewrite parse_object_eq. split.
  - intros [r H].
    destruct (truthy (allowUnknown (spread opts0 o))) eqn:Hau;
      destruct (illegalKeys (map fst shape) fields) as [|x rest] eqn:Hill;
      simpl in H; try discriminate H;
      (split; [auto|]);
      (eapply Forall_impl; [|eapply parseKeys_return_all_accept; eauto]);
      intros kt Hkt; now apply acceptsKey_iff.
  - intros [Hcheck Hall].
    replace (negb (truthy (allowUnknown (spread opts0 o)))
             && Nat.ltb 0 (List.length (illegalKeys (map fst shape) fields)))
      with false
      by (destruct Hcheck as [-> | ->]; [reflexivity | now rewrite andb_false_r]).
    apply parseKeys_all_accept.
    eapply Forall_impl; [|exact Hall]. intros kt Hkt. now apply acceptsKey_iff.
Qed.

(** [object({ a: string().optional() })] accepts [{}]: the missing key is
    validated on [undefined]; [object({ a: string() })] does not. *)
Lemma object_accepts_iff_witness :
  parse Samples.optionalA (VObject []) None = Return (VObject [("a", VUndefined)])
  /\ parse Samples.stringA (VObject []) None
     = Throw {| message := "error parsing object at path: " ++ String "034" "a"
                             ++ String "034"
                                  " - expected type to be string but got undefined";
                path := Some [Key "a"]; prefixes := 1 |}
  /\ exists r, parse Samples.optionalA (VObject []) None = Return r.
Proof.
  split; [reflexivity|]. split; [reflexivity|].
  apply (proj2 (object_accepts_iff [("a", optional StringType)] None None []
                  eq_refl eq_refl)).
  split; [now right|]. constructor; [|constructor].
  split; [discriminate|]. eexists. reflexivity.
Defined.

(** X18: giving a union [strict: false] never turns an accepted input into
    a rejected one (the accepting candidate may change, and with it the
    value returned). *)
Theorem union_strict_false_accepts_more schemas opts v o r :
  parse (UnionType schemas opts) v o = Return r ->
  exists r', parse (UnionType schemas (Some {| strict := Some false |})) v o = Return r'.
Proof.
  rewrite !parse_union_eq. intros H.
  pose proof (parseUnion_inv opts v schemas [] 0) as Hinv. rewrite H in Hinv.
  destruct Hinv as (pre & c & post & -> & _ & Hc).
  apply parseUnion_some_accept. apply Exists_exists. exists c.
  split; [apply in_or_app; simpl; auto|].
  exists r. unfold parseCandidate in *. cbn [strictIsFalse andb].
  destruct (isObjectType c) eqn:Hobj.
  - destruct (strictIsFalse opts); cbn [andb] in Hc; [exact Hc|].
    apply (parse_allowing c v None r Hc).
  - now rewrite andb_false_r in Hc.
Qed.

(** [union([object({ a: string() }), number()])] accepts [{ a: "x" }], also
    with [strict: false]. *)
Lemma union_strict_false_accepts_more_witness :
  exists r',
    parse (UnionType [Samples.stringA; NumberType] (Some {| strict := Some false |}))
          (VObject [("a", VString "x")]) None = Return r'.
Proof.
  apply (union_strict_false_accepts_more [Samples.stringA; NumberType] None
           (VObject [("a", VString "x")]) None (VObject [("a", VString "x")])).
  reflexivity.
Defined.
